(** * sailing_robot.gps_utils: UBX codec and UBX/NMEA stream parser

    A shallow embedding of [gps_utils.py]: the UBX checksum and the
    serialisation of outbound UBX messages, and the [UbxNmeaParser] that
    splits a byte stream into NMEA sentences and UBX frames.

    Python [bytes] are lists of [Byte.byte]; Python integers are [Z].
    The parser object's single field [buf] is threaded through a small
    state-and-exception monad. The external [pynmea2] decoder is a
    parameter of the parser section. *)

From Stdlib Require Import ZArith List Bool Lia.
From Stdlib Require Import Init.Byte Strings.Byte.
Import ListNotations.
Open Scope Z_scope.

(** ** Byte strings *)

Definition bytes := list byte.

(** The integer value of a byte, as [iterating over bytes] gives it in
    Python 3 and [ord] in Python 2. *)
Definition int_of_byte (c : byte) : Z := Z.of_N (Byte.to_N c).

(** The byte whose value is [z mod 256]. *)
Definition byte_of_int (z : Z) : byte :=
  match Byte.of_N (Z.to_N (z mod 256)) with
  | Some c => c
  | None => x00
  end.

(** [len(b)] *)
Definition len (b : bytes) : Z := Z.of_nat (length b).

(** [b[:n]] and [b[n:]]; a negative bound counts from the end, and bounds
    beyond either end are clamped. *)
Definition slice_to (n : Z) (b : bytes) : bytes :=
  if n <? 0 then firstn (Z.to_nat (len b + n)) b else firstn (Z.to_nat n) b.

Definition slice_from (n : Z) (b : bytes) : bytes :=
  if n <? 0 then skipn (Z.to_nat (len b + n)) b else skipn (Z.to_nat n) b.

(** [b[i:j]] for non-negative [i], [j]. *)
Definition slice (i j : Z) (b : bytes) : bytes :=
  slice_from i (slice_to j b).

(** [b.startswith(sub)] *)
Fixpoint startswith (sub b : bytes) : bool :=
  match sub, b with
  | [], _ => true
  | _ :: _, [] => false
  | x :: sub', y :: b' => Byte.eqb x y && startswith sub' b'
  end.

(** [b.find(sub)]: the lowest index at which [sub] occurs in [b], or [-1]. *)
Fixpoint find_at (sub b : bytes) (i : Z) {struct b} : Z :=
  if startswith sub b then i
  else match b with
       | [] => -1
       | _ :: b' => find_at sub b' (i + 1)
       end.

Definition find (sub b : bytes) : Z := find_at sub b 0.

(** [sub] occurs in [b] at index [k], and nowhere before. *)
Definition first_at (sub b : bytes) (k : nat) : Prop :=
  startswith sub (skipn k b) = true
  /\ (forall j, (j < k)%nat -> startswith sub (skipn j b) = false)
  /\ (k + length sub <= length b)%nat.

(** [sub] occurs nowhere in [b]. *)
Definition absent (sub b : bytes) : Prop :=
  forall j, startswith sub (skipn j b) = false.

(** ** The [struct] module, for the formats the program uses

    [None] stands for [struct.error]. *)

(** [struct.pack('<H', n)] *)
Definition pack_H_le (n : Z) : option bytes :=
  if (0 <=? n) && (n <=? 65535)
  then Some [byte_of_int (Z.land n 255); byte_of_int (Z.shiftr n 8)]
  else None.

(** [struct.pack('BB', a, b)] *)
Definition pack_BB (a b : Z) : option bytes :=
  if (0 <=? a) && (a <=? 255) && (0 <=? b) && (b <=? 255)
  then Some [byte_of_int a; byte_of_int b]
  else None.

(** [struct.unpack('<H', b)[0]] *)
Definition unpack_H_le (b : bytes) : option Z :=
  match b with
  | [lo; hi] => Some (int_of_byte lo + 256 * int_of_byte hi)
  | _ => None
  end.

(** ** UBX codec *)

Definition iter_ints (b : bytes) : list Z := map int_of_byte b.

(** The loop of [ubx_checksum], from the accumulators [(a, b)]. *)
Fixpoint ubx_checksum_loop (a b : Z) (cs : list Z) : Z * Z :=
  match cs with
  | [] => (a, b)
  | c :: cs' =>
      let a := Z.land (a + c) 255 in
      let b := Z.land (b + a) 255 in
      ubx_checksum_loop a b cs'
  end.

Definition ubx_checksum (msg : bytes) : option bytes :=
  let '(a, b) := ubx_checksum_loop 0 0 (iter_ints msg) in
  pack_BB a b.

Record UBXMessage := mkUBXMessage { msg_id : bytes; payload : bytes }.

Definition serialise (self : UBXMessage) : option bytes :=
  match pack_H_le (len (payload self)) with
  | None => None
  | Some packed =>
      let msg_body := msg_id self ++ packed ++ payload self in
      match ubx_checksum msg_body with
      | None => None
      | Some checksum => Some ([xb5; x62] ++ msg_body ++ checksum ++ [x10; x13])
      end
  end.

(** The checksum as the specification words it: two 8-bit accumulators,
    each updated modulo 256, bytes taken left to right. *)
Fixpoint checksum_reference (a b : Z) (cs : list Z) : Z * Z :=
  match cs with
  | [] => (a, b)
  | c :: cs' => checksum_reference ((a + c) mod 256) ((b + (a + c) mod 256) mod 256) cs'
  end.

(** The sum of a list of integers, and the sum in which every element is
    weighted by the number of elements from it to the end of the list. *)
Fixpoint total (cs : list Z) : Z :=
  match cs with
  | [] => 0
  | c :: cs' => c + total cs'
  end.

Fixpoint weighted_total (cs : list Z) : Z :=
  match cs with
  | [] => 0
  | c :: cs' => Z.of_nat (length cs) * c + weighted_total cs'
  end.

(** A stand-in for the external decoder, to run the parser on concrete
    streams: the sentence object is the sentence's bytes, and decoding a
    sentence that does not begin with [$] raises. *)
Definition echo_parse (data : bytes) : bytes + unit :=
  if startswith [x24] data then inl data else inr tt.

(** A stream of noise, an NMEA sentence, noise and a UBX frame with a
    2-byte payload, and a UBX frame of declared payload length 10. *)
Definition sample_sentence : bytes := [x24; x47; x50; x0d; x0a].
Definition sample_frame : bytes := [xb5; x62; x01; x02; x02; x00; xaa; xbb; x6a; x27].
Definition sample_stream : bytes :=
  [x00; x01] ++ sample_sentence ++ [x07] ++ sample_frame.
Definition sample_frame_10 : bytes :=
  [xb5; x62; x01; x02; x0a; x00;
   x00; x01; x02; x03; x04; x05; x06; x07; x08; x09; x3a; x45].

(** ** The stream parser *)

(** The markers the parser searches for. *)
Definition NMEA_START : bytes := [x24].          (* b'$' *)
Definition UBX_START : bytes := [xb5; x62].      (* b'\xb5b' *)
Definition CRLF : bytes := [x0d; x0a].           (* b'\r\n' *)

Section Parser.

(** The external decoder [pynmea2.NMEASentence.parse]: it returns a sentence
    object or raises. *)
Variable Sentence : Type.
Variable ParseError : Type.
Variable NMEASentence_parse : bytes -> Sentence + ParseError.

(** What [_next_msg] returns when it does not return [None]: a decoded
    sentence object or a [bytes] value. *)
Inductive msg :=
| Nmea (s : Sentence)
| Raw (b : bytes).

Inductive exn :=
| ParseFailure (e : ParseError)
| StructError.

(** Methods of [UbxNmeaParser]: a computation on [self.buf] that returns a
    value or raises. *)
Definition M (A : Type) : Type := bytes -> (A + exn) * bytes.

Definition ret {A} (a : A) : M A := fun buf => (inl a, buf).
Definition raise {A} (e : exn) : M A := fun buf => (inr e, buf).
Definition bind {A B} (m : M A) (k : A -> M B) : M B :=
  fun buf =>
    match m buf with
    | (inl a, buf') => k a buf'
    | (inr e, buf') => (inr e, buf')
    end.
Definition get_buf : M bytes := fun buf => (inl buf, buf).
Definition set_buf (b : bytes) : M unit := fun _ => (inl tt, b).

Notation "x <- m ;; k" := (bind m (fun x => k))
  (at level 61, m at next level, right associativity).
Notation "m ;;; k" := (bind m (fun _ => k))
  (at level 61, right associativity).

(** [UbxNmeaParser()] *)
Definition init : bytes := [].

Definition feed (data : bytes) : M unit :=
  buf <- get_buf ;;
  set_buf (buf ++ data).

Definition _take_chunk (n : Z) : M bytes :=
  buf <- get_buf ;;
  set_buf (slice_from n buf) ;;;
  ret (slice_to n buf).

Definition _take_nmea : M (option msg) :=
  buf <- get_buf ;;
  let crlf_ix := find CRLF buf in
  if crlf_ix =? -1 then ret None
  else
    data <- _take_chunk (crlf_ix + 2) ;;
    match NMEASentence_parse data with
    | inl s => ret (Some (Nmea s))
    | inr e => raise (ParseFailure e)
    end.

Definition _take_ubx : M (option msg) :=
  buf <- get_buf ;;
  if len buf <? 6 then ret None
  else
    match unpack_H_le (slice 4 6 buf) with
    | None => raise StructError
    | Some payload_length =>
        let msg_length := payload_length + 8 in
        if len buf >=? msg_length
        then c <- _take_chunk msg_length ;; ret (Some (Raw c))
        else ret None
    end.

Definition _next_msg : M (option msg) :=
  buf <- get_buf ;;
  let nmea_start := find NMEA_START buf in
  let ubx_start := find UBX_START buf in
  if nmea_start =? 0 then _take_nmea
  else if ubx_start =? 0 then _take_ubx
  else if (nmea_start >? 0) && (ubx_start >? 0)
  then c <- _take_chunk (Z.min nmea_start ubx_start) ;; ret (Some (Raw c))
  else if nmea_start >? 0
  then c <- _take_chunk nmea_start ;; ret (Some (Raw c))
  else if ubx_start >? 0
  then c <- _take_chunk ubx_start ;; ret (Some (Raw c))
  else ret None.

(** How a drained iterator ended. *)
Inductive ending :=
| Stopped               (* the sentinel [None] was returned *)
| Raises (e : exn)      (* a call raised *)
| OutOfFuel.

(** [iter(self._next_msg, None)], drained: [_next_msg] is called until it
    returns [None]; every other value is yielded. At most [fuel] calls. *)
Fixpoint get_msgs_upto (fuel : nat) (buf : bytes) : list msg * ending * bytes :=
  match fuel with
  | O => ([], OutOfFuel, buf)
  | S fuel' =>
      match _next_msg buf with
      | (inl None, buf') => ([], Stopped, buf')
      | (inl (Some m), buf') =>
          let '(ms, e, buf'') := get_msgs_upto fuel' buf' in (m :: ms, e, buf'')
      | (inr e, buf') => ([], Raises e, buf')
      end
  end.

Definition get_msgs (buf : bytes) : list msg * ending * bytes :=
  get_msgs_upto (S (length buf)) buf.

(** A caller's use of a parser: any sequence of [feed] and [_next_msg]
    calls; each call's result is recorded. *)
Inductive call :=
| Feed (data : bytes)
| NextMsg.

Definition do_call (c : call) : M (option msg) :=
  match c with
  | Feed data => feed data ;;; ret None
  | NextMsg => _next_msg
  end.

Fixpoint do_calls (cs : list call) (buf : bytes) : list (option msg + exn) * bytes :=
  match cs with
  | [] => ([], buf)
  | c :: cs' =>
      let '(r, buf') := do_call c buf in
      let '(rs, buf'') := do_calls cs' buf' in
      (r :: rs, buf'')
  end.

(** The bytes given to [feed] by a sequence of calls, in order. *)
Fixpoint fed (cs : list call) : bytes :=
  match cs with
  | [] => []
  | Feed data :: cs' => data ++ fed cs'
  | NextMsg :: cs' => fed cs'
  end.

(** The loop of [test_stream_parser]: each chunk read is fed, then the
    messages of [get_msgs] are drained. The messages drained after each
    chunk are recorded; the loop ends with the chunks or at a raise. *)
Fixpoint stream_loop (chunks : list bytes) (buf : bytes)
  : list (list msg) * ending * bytes :=
  match chunks with
  | [] => ([], Stopped, buf)
  | b :: chunks' =>
      let '(_, buf1) := feed b buf in
      let '(ms, e, buf2) := get_msgs buf1 in
      match e with
      | Stopped =>
          let '(mss, e', buf3) := stream_loop chunks' buf2 in (ms :: mss, e', buf3)
      | _ => ([ms], e, buf2)
      end
  end.

(** Kinds of yielded values. *)
Definition is_ubx_frame (m : msg) : bool :=
  match m with
  | Nmea _ => false
  | Raw b => startswith UBX_START b
  end.

Definition is_nmea (m : msg) : bool :=
  match m with
  | Nmea _ => true
  | Raw _ => false
  end.

(** A span of skipped bytes: not empty, and with neither marker in it. *)
Definition is_noise (m : msg) : bool :=
  match m with
  | Nmea _ => false
  | Raw b => negb (len b =? 0) && (find NMEA_START b =? -1) && (find UBX_START b =? -1)
  end.

(** What [get_msgs] can yield. *)
Definition yieldable (m : msg) : bool :=
  is_nmea m || is_ubx_frame m || is_noise m.

(** The span of the stream that one call consumed, read off its result:
    [feed] consumes nothing; [_next_msg] returns the span itself, or what the
    decoder made of it, or raises what the decoder raised on it. *)
Definition consumes (c : call) (r : option msg + exn) (span : bytes) : Prop :=
  match c, r with
  | Feed _, r => r = inl None /\ span = []
  | NextMsg, inl None => span = []
  | NextMsg, inl (Some (Raw b)) => span <> [] /\ b = span
  | NextMsg, inl (Some (Nmea s)) => span <> [] /\ NMEASentence_parse span = inl s
  | NextMsg, inr (ParseFailure e) => span <> [] /\ NMEASentence_parse span = inr e
  | NextMsg, inr StructError => False
  end.

(** [spans] gives, call by call, the span each call of [cs] consumed, for
    the results [rs]. *)
Fixpoint accounts (cs : list call) (rs : list (option msg + exn)) (spans : list bytes)
  : Prop :=
  match cs, rs, spans with
  | [], [], [] => True
  | c :: cs', r :: rs', span :: spans' => consumes c r span /\ accounts cs' rs' spans'
  | _, _, _ => False
  end.

(** The little-endian length field of a buffered UBX header. *)
Definition declared_length (buf : bytes) : Z :=
  int_of_byte (nth 4 buf x00) + 256 * int_of_byte (nth 5 buf x00).

(** The three ways a detection call has no unit to return. *)
Definition not_ready (buf : bytes) : Prop :=
  (find NMEA_START buf = -1 /\ find UBX_START buf = -1)
  \/ (find NMEA_START buf = 0 /\ find CRLF buf = -1)
  \/ (find UBX_START buf = 0 /\ (len buf < 6 \/ len buf < declared_length buf + 8)).

(** A raw value that begins with the UBX marker is as long as its own
    header says: the declared payload length and 8 bytes more. *)
Definition well_framed (m : msg) : bool :=
  match m with
  | Nmea _ => true
  | Raw b => negb (startswith UBX_START b) || (len b =? declared_length b + 8)
  end.

(** ** Bytes and integers *)

Lemma int_of_byte_range (c : byte) : 0 <= int_of_byte c < 256.
Proof.
  unfold int_of_byte. pose proof (Byte.to_N_bounded c). lia.
Qed.

Lemma int_of_byte_of_int (z : Z) : 0 <= z < 256 -> int_of_byte (byte_of_int z) = z.
Proof.
  intros Hz. unfold int_of_byte, byte_of_int.
  rewrite Z.mod_small by lia.
  destruct (Byte.of_N (Z.to_N z)) as [c|] eqn:E.
  - apply Byte.to_of_N in E. rewrite E. lia.
  - apply Byte.of_N_None_iff in E. lia.
Qed.

Lemma land_255 (z : Z) : Z.land z 255 = z mod 256.
Proof.
  change 255 with (Z.ones 8). rewrite Z.land_ones by lia. reflexivity.
Qed.

Lemma shiftr_8 (z : Z) : Z.shiftr z 8 = z / 256.
Proof.
  rewrite Z.shiftr_div_pow2 by lia. reflexivity.
Qed.

Lemma len_app (a b : bytes) : len (a ++ b) = len a + len b.
Proof.
  unfold len. rewrite length_app. lia.
Qed.

Lemma len_nonneg (b : bytes) : 0 <= len b.
Proof.
  unfold len. lia.
Qed.

(** ** The checksum *)

Lemma ubx_checksum_loop_reference (cs : list Z) :
  forall a b, ubx_checksum_loop a b cs = checksum_reference a b cs.
Proof.
  induction cs as [|c cs IH]; intros a b; simpl.
  - reflexivity.
  - rewrite !land_255. apply IH.
Qed.

Lemma checksum_reference_range (cs : list Z) :
  forall a b, 0 <= a < 256 -> 0 <= b < 256 ->
    0 <= fst (checksum_reference a b cs) < 256
    /\ 0 <= snd (checksum_reference a b cs) < 256.
Proof.
  induction cs as [|c cs IH]; intros a b Ha Hb; simpl.
  - split; assumption.
  - apply IH; apply Z.mod_pos_bound; lia.
Qed.

Lemma ubx_checksum_total (msg : bytes) :
  exists x y, ubx_checksum msg = Some [x; y].
Proof.
  unfold ubx_checksum. rewrite ubx_checksum_loop_reference.
  destruct (checksum_reference_range (iter_ints msg) 0 0) as [Ha Hb]; try lia.
  destruct (checksum_reference 0 0 (iter_ints msg)) as [a b]. simpl in Ha, Hb.
  unfold pack_BB.
  replace (0 <=? a) with true by (symmetry; apply Z.leb_le; lia).
  replace (a <=? 255) with true by (symmetry; apply Z.leb_le; lia).
  replace (0 <=? b) with true by (symmetry; apply Z.leb_le; lia).
  replace (b <=? 255) with true by (symmetry; apply Z.leb_le; lia).
  simpl. eauto.
Qed.

(** C2: for every byte sequence, [ubx_checksum] returns the two bytes
    whose values are the accumulators [(a, b)] of the reference algorithm
    run over the values of the bytes of the message, in their order: from
    [a = 0], [b = 0], for each byte [c] left to right
    [a = (a + c) mod 256] then [b = (b + a) mod 256]. *)
Theorem ubx_checksum_is_reference (msg : bytes) :
  exists x y,
    ubx_checksum msg = Some [x; y]
    /\ (int_of_byte x, int_of_byte y)
       = checksum_reference 0 0 (map int_of_byte msg).
Proof.
  change (map int_of_byte msg) with (iter_ints msg).
  unfold ubx_checksum. rewrite ubx_checksum_loop_reference.
  destruct (checksum_reference_range (iter_ints msg) 0 0) as [Ha Hb]; try lia.
  destruct (checksum_reference 0 0 (iter_ints msg)) as [a b]. simpl in Ha, Hb.
  exists (byte_of_int a), (byte_of_int b). split.
  - unfold pack_BB.
    replace (0 <=? a) with true by (symmetry; apply Z.leb_le; lia).
    replace (a <=? 255) with true by (symmetry; apply Z.leb_le; lia).
    replace (0 <=? b) with true by (symmetry; apply Z.leb_le; lia).
    replace (b <=? 255) with true by (symmetry; apply Z.leb_le; lia).
    reflexivity.
  - rewrite !int_of_byte_of_int by lia. reflexivity.
Qed.

(** ** Serialisation *)

Lemma pack_H_le_spec (n : Z) :
  0 <= n <= 65535 ->
  exists lo hi, pack_H_le n = Some [lo; hi]
                /\ int_of_byte lo + 256 * int_of_byte hi = n.
Proof.
  intros Hn. unfold pack_H_le.
  replace (0 <=? n) with true by (symmetry; apply Z.leb_le; lia).
  replace (n <=? 65535) with true by (symmetry; apply Z.leb_le; lia).
  cbv [andb]. do 2 eexists. split; [reflexivity|].
  rewrite land_255, shiftr_8.
  assert (Hlo : 0 <= n mod 256 < 256) by (apply Z.mod_pos_bound; lia).
  assert (Hhi : 0 <= n / 256 < 256)
    by (split; [apply Z.div_pos; lia | apply Z.div_lt_upper_bound; lia]).
  rewrite !int_of_byte_of_int by assumption.
  pose proof (Z.div_mod n 256 ltac:(lia)). lia.
Qed.

(** [serialise] succeeds on a payload that fits 16 bits, whatever the
    [msg_id]. *)
Lemma serialise_eq (m : UBXMessage) :
  len (payload m) <= 65535 ->
  exists lo hi x y,
    int_of_byte lo + 256 * int_of_byte hi = len (payload m)
    /\ ubx_checksum (msg_id m ++ [lo; hi] ++ payload m) = Some [x; y]
    /\ serialise m
       = Some ([xb5; x62] ++ (msg_id m ++ [lo; hi] ++ payload m) ++ [x; y] ++ [x10; x13]).
Proof.
  intros Hlen.
  destruct (pack_H_le_spec (len (payload m))) as (lo & hi & Hp & Hv).
  { pose proof (len_nonneg (payload m)). lia. }
  destruct (ubx_checksum_total (msg_id m ++ [lo; hi] ++ payload m)) as (x & y & Hck).
  exists lo, hi, x, y. unfold serialise. rewrite Hp, Hck. auto.
Qed.

(** C3: for a message with a 2-byte [msg_id] and a payload of at most 65535
    bytes, [serialise] returns [B5 62], then the body (the [msg_id], the
    payload length as a little-endian 16-bit integer, the payload), then
    the checksum of the body, then [10 13]; its length is the payload
    length plus 10. *)
Theorem serialise_layout (m : UBXMessage) :
  length (msg_id m) = 2%nat ->
  len (payload m) <= 65535 ->
  exists lo hi ck out,
    int_of_byte lo + 256 * int_of_byte hi = len (payload m)
    /\ ubx_checksum (msg_id m ++ [lo; hi] ++ payload m) = Some ck
    /\ serialise m = Some out
    /\ out = [xb5; x62] ++ (msg_id m ++ [lo; hi] ++ payload m) ++ ck ++ [x10; x13]
    /\ len out = len (payload m) + 10
    /\ len out = 8 + len (payload m) + 2.
Proof.
  intros Hid Hlen.
  destruct (serialise_eq m Hlen) as (lo & hi & x & y & Hv & Hck & Hs).
  exists lo, hi, [x; y]. eexists.
  split; [exact Hv|]. split; [exact Hck|]. split; [exact Hs|].
  split; [reflexivity|].
  assert (Hout : len ([xb5; x62] ++ (msg_id m ++ [lo; hi] ++ payload m)
                        ++ [x; y] ++ [x10; x13])
                 = len (payload m) + 10).
  { rewrite !len_app. unfold len. simpl length. rewrite Hid. lia. }
  split; [exact Hout | lia].
Qed.

(** ** Searching a buffer *)

Lemma startswith_length (sub : bytes) :
  forall b, startswith sub b = true -> (length sub <= length b)%nat.
Proof.
  induction sub as [|x sub IH]; intros [|y b] H; simpl in *;
    try discriminate; try lia.
  apply andb_true_iff in H as [_ H]. apply IH in H. lia.
Qed.

Lemma startswith_app (sub : bytes) :
  forall b, startswith sub b = true -> exists t, b = sub ++ t.
Proof.
  induction sub as [|x sub IH]; intros b H.
  - exists b. reflexivity.
  - destruct b as [|y b]; simpl in H; [discriminate|].
    apply andb_true_iff in H as [Hxy H].
    apply Byte.byte_dec_bl in Hxy. subst y.
    destruct (IH _ H) as [t ->]. exists t. reflexivity.
Qed.

Lemma startswith_prefix (sub t : bytes) : startswith sub (sub ++ t) = true.
Proof.
  induction sub as [|x sub IH]; simpl.
  - reflexivity.
  - rewrite IH, (Byte.byte_dec_lb eq_refl). reflexivity.
Qed.

Lemma startswith_firstn (sub : bytes) :
  forall n b, startswith sub (firstn n b) = true -> startswith sub b = true.
Proof.
  intros n b H. apply startswith_app in H as [t Ht].
  rewrite <- (firstn_skipn n b), Ht, <- app_assoc. apply startswith_prefix.
Qed.

Lemma startswith_app_l (sub b t : bytes) :
  startswith sub b = true -> startswith sub (b ++ t) = true.
Proof.
  intros H. apply startswith_app in H as [u ->].
  rewrite <- app_assoc. apply startswith_prefix.
Qed.

Lemma find_at_cases (sub : bytes) :
  forall b i,
    (find_at sub b i = -1 /\ absent sub b)
    \/ (exists k, find_at sub b i = i + Z.of_nat k /\ first_at sub b k).
Proof.
  induction b as [|y b IH]; intros i; simpl.
  - destruct (startswith sub []) eqn:E.
    + right. exists 0%nat. split; [lia|]. repeat split.
      * exact E.
      * intros j Hj. lia.
      * apply startswith_length in E. simpl in *. lia.
    + left. split; [reflexivity|]. intros j. rewrite skipn_nil. exact E.
  - destruct (startswith sub (y :: b)) eqn:E.
    + right. exists 0%nat. split; [lia|]. repeat split.
      * exact E.
      * intros j Hj. lia.
      * apply startswith_length in E. simpl in *. lia.
    + destruct (IH (i + 1)) as [[Hf Ha] | (k & Hf & Hs & Hb & Hl)].
      * left. split; [exact Hf|]. intros [|j]; simpl; [exact E | apply Ha].
      * right. exists (S k). split; [lia|]. repeat split.
        -- exact Hs.
        -- intros [|j] Hj; simpl; [exact E | apply Hb; lia].
        -- simpl. lia.
Qed.

Lemma find_cases (sub b : bytes) :
  (find sub b = -1 /\ absent sub b)
  \/ (exists k, find sub b = Z.of_nat k /\ first_at sub b k).
Proof.
  unfold find. destruct (find_at_cases sub b 0) as [H | (k & Hf & H)].
  - left. exact H.
  - right. exists k. split; [lia | exact H].
Qed.

Lemma find_absent (sub b : bytes) : absent sub b -> find sub b = -1.
Proof.
  intros Ha. destruct (find_cases sub b) as [[H _] | (k & _ & Hs & _)].
  - exact H.
  - rewrite Ha in Hs. discriminate.
Qed.

Lemma find_first_at (sub b : bytes) (k : nat) :
  first_at sub b k -> find sub b = Z.of_nat k.
Proof.
  intros (Hs & Hb & _).
  destruct (find_cases sub b) as [[_ Ha] | (k' & Hf & Hs' & Hb' & _)].
  - rewrite Ha in Hs. discriminate.
  - destruct (Nat.lt_trichotomy k' k) as [Hlt | [-> | Hgt]].
    + rewrite (Hb _ Hlt) in Hs'. discriminate.
    + exact Hf.
    + rewrite (Hb' _ Hgt) in Hs. discriminate.
Qed.

Lemma find_range (sub b : bytes) :
  find sub b = -1 \/ (0 <= find sub b /\ find sub b + len sub <= len b).
Proof.
  destruct (find_cases sub b) as [[H _] | (k & Hf & _ & _ & Hl)].
  - left. exact H.
  - right. unfold len. lia.
Qed.

Lemma find_zero (sub b : bytes) : find sub b = 0 <-> startswith sub b = true.
Proof.
  unfold find. split.
  - destruct b as [|y b]; simpl; destruct (startswith sub _) eqn:E; try reflexivity.
    + discriminate.
    + destruct (find_at_cases sub b 1) as [[H _] | (k & H & _)]; rewrite H; lia.
  - intros H. destruct b; simpl; rewrite H; reflexivity.
Qed.

(** An occurrence in a prefix of the buffer is an occurrence in the buffer. *)
Lemma occurrence_firstn (sub b : bytes) (n j : nat) :
  sub <> [] ->
  startswith sub (skipn j (firstn n b)) = true ->
  startswith sub (skipn j b) = true /\ (j + length sub <= n)%nat.
Proof.
  intros Hne H. split.
  - rewrite skipn_firstn_comm in H. eapply startswith_firstn, H.
  - apply startswith_length in H. rewrite length_skipn, length_firstn in H.
    destruct sub; [contradiction | simpl in *; lia].
Qed.

(** A prefix that ends no later than the first occurrence has none, when
    the pattern is not empty. *)
Lemma absent_firstn (sub b : bytes) (n : nat) :
  sub <> [] ->
  (forall j, (j < n)%nat -> startswith sub (skipn j b) = false) ->
  absent sub (firstn n b).
Proof.
  intros Hne Hb j. destruct (startswith sub (skipn j (firstn n b))) eqn:E; [|reflexivity].
  apply occurrence_firstn in E as [E Hl]; [|exact Hne].
  rewrite Hb in E; [discriminate|].
  destruct sub; [contradiction | simpl in Hl; lia].
Qed.

Lemma absent_before (sub b : bytes) (n : nat) :
  sub <> [] ->
  (find sub b = -1 \/ Z.of_nat n <= find sub b) ->
  find sub (firstn n b) = -1.
Proof.
  intros Hne H. apply find_absent, absent_firstn; [exact Hne|].
  intros j Hj. destruct (find_cases sub b) as [[_ Ha] | (k & Hf & _ & Hb & _)].
  - apply Ha.
  - apply Hb. lia.
Qed.

(** ** One call of each parser method *)

Ltac run_method :=
  cbv [_next_msg _take_nmea _take_ubx _take_chunk feed bind get_buf set_buf ret raise].

Lemma slice_to_nonneg (n : Z) (b : bytes) :
  0 <= n -> slice_to n b = firstn (Z.to_nat n) b.
Proof.
  intros H. unfold slice_to. destruct (Z.ltb_spec n 0); [lia | reflexivity].
Qed.

Lemma slice_from_nonneg (n : Z) (b : bytes) :
  0 <= n -> slice_from n b = skipn (Z.to_nat n) b.
Proof.
  intros H. unfold slice_from. destruct (Z.ltb_spec n 0); [lia | reflexivity].
Qed.

Lemma feed_eq (data buf : bytes) : feed data buf = (inl tt, buf ++ data).
Proof. reflexivity. Qed.

Lemma take_chunk_eq (n : Z) (buf : bytes) :
  0 <= n ->
  _take_chunk n buf = (inl (firstn (Z.to_nat n) buf), skipn (Z.to_nat n) buf).
Proof.
  intros H. run_method. rewrite slice_to_nonneg, slice_from_nonneg by exact H.
  reflexivity.
Qed.

Lemma take_nmea_eq (buf : bytes) :
  _take_nmea buf =
    if find CRLF buf =? -1 then (inl None, buf)
    else
      let k := Z.to_nat (find CRLF buf + 2) in
      match NMEASentence_parse (firstn k buf) with
      | inl s => (inl (Some (Nmea s)), skipn k buf)
      | inr e => (inr (ParseFailure e), skipn k buf)
      end.
Proof.
  run_method. destruct (Z.eqb_spec (find CRLF buf) (-1)) as [E | E]; [reflexivity|].
  assert (0 <= find CRLF buf + 2) by (destruct (find_range CRLF buf); lia).
  rewrite slice_to_nonneg, slice_from_nonneg by assumption. cbv zeta.
  destruct (NMEASentence_parse _); reflexivity.
Qed.

Lemma header_slice (buf : bytes) :
  6 <= len buf -> unpack_H_le (slice 4 6 buf) = Some (declared_length buf).
Proof.
  intros H. unfold len in H.
  do 6 (destruct buf as [|? buf]; [simpl in H; lia|]).
  reflexivity.
Qed.

Lemma declared_length_nonneg (buf : bytes) : 0 <= declared_length buf.
Proof.
  unfold declared_length.
  pose proof (int_of_byte_range (nth 4 buf x00)).
  pose proof (int_of_byte_range (nth 5 buf x00)). lia.
Qed.

Lemma take_ubx_eq (buf : bytes) :
  _take_ubx buf =
    if len buf <? 6 then (inl None, buf)
    else
      let k := Z.to_nat (declared_length buf + 8) in
      if len buf >=? declared_length buf + 8
      then (inl (Some (Raw (firstn k buf))), skipn k buf)
      else (inl None, buf).
Proof.
  run_method. destruct (Z.ltb_spec (len buf) 6) as [E | E]; [reflexivity|].
  rewrite header_slice by exact E. cbv zeta.
  pose proof (declared_length_nonneg buf).
  destruct (len buf >=? declared_length buf + 8); [|reflexivity].
  rewrite slice_to_nonneg, slice_from_nonneg by lia. reflexivity.
Qed.

Lemma next_msg_nmea (buf : bytes) :
  find NMEA_START buf = 0 -> _next_msg buf = _take_nmea buf.
Proof.
  intros H. unfold _next_msg at 1, bind at 1, get_buf at 1.
  rewrite H. reflexivity.
Qed.

Lemma next_msg_ubx (buf : bytes) :
  find UBX_START buf = 0 -> _next_msg buf = _take_ubx buf.
Proof.
  intros H. unfold _next_msg at 1, bind at 1, get_buf at 1.
  rewrite H.
  destruct (Z.eqb_spec (find NMEA_START buf) 0) as [E | E]; [|reflexivity].
  apply find_zero in E. apply find_zero in H.
  destruct buf as [|c buf]; [discriminate|]. simpl in E, H.
  apply andb_true_iff in E as [E _]. apply andb_true_iff in H as [H _].
  apply Byte.byte_dec_bl in E. apply Byte.byte_dec_bl in H. congruence.
Qed.

(** The offset a detection call skips to: the nearer marker. *)
Lemma next_msg_skip (buf : bytes) (k : Z) :
  find NMEA_START buf <> 0 ->
  find UBX_START buf <> 0 ->
  0 < k ->
  (0 < find NMEA_START buf /\ 0 < find UBX_START buf
     /\ k = Z.min (find NMEA_START buf) (find UBX_START buf))
  \/ (find UBX_START buf = -1 /\ k = find NMEA_START buf)
  \/ (find NMEA_START buf = -1 /\ k = find UBX_START buf) ->
  _next_msg buf = (inl (Some (Raw (firstn (Z.to_nat k) buf))), skipn (Z.to_nat k) buf).
Proof.
  intros Hn Hu Hk H. unfold _next_msg at 1, bind at 1, get_buf at 1. cbv zeta.
  destruct (Z.eqb_spec (find NMEA_START buf) 0); [contradiction|].
  destruct (Z.eqb_spec (find UBX_START buf) 0); [contradiction|].
  rewrite !Z.gtb_ltb.
  destruct (Z.ltb_spec 0 (find NMEA_START buf));
    destruct (Z.ltb_spec 0 (find UBX_START buf)); cbv [andb];
    destruct H as [(? & ? & ->) | [(? & ->) | (? & ->)]]; try lia;
    unfold bind, ret; rewrite take_chunk_eq by lia; reflexivity.
Qed.

Lemma next_msg_none (buf : bytes) :
  find NMEA_START buf = -1 -> find UBX_START buf = -1 ->
  _next_msg buf = (inl None, buf).
Proof.
  intros Hn Hu. run_method. rewrite Hn, Hu. reflexivity.
Qed.

(** Every detection call removes a prefix of the buffer, of [k] bytes; the
    value it returns is that prefix or decoded from it, and [k] is zero
    exactly when it returns [None]. *)
Lemma next_msg_shape (buf : bytes) :
  exists k : nat,
    (k <= length buf)%nat
    /\ snd (_next_msg buf) = skipn k buf
    /\ match fst (_next_msg buf) with
       | inl None => k = 0%nat
       | inl (Some (Raw c)) => (0 < k)%nat /\ c = firstn k buf
       | inl (Some (Nmea s)) =>
           (0 < k)%nat /\ NMEASentence_parse (firstn k buf) = inl s
       | inr (ParseFailure e) =>
           (0 < k)%nat /\ NMEASentence_parse (firstn k buf) = inr e
       | inr StructError => False
       end.
Proof.
  pose proof (find_range NMEA_START buf) as Rn.
  pose proof (find_range UBX_START buf) as Ru.
  pose proof (find_range CRLF buf) as Rc.
  unfold len in Rn, Ru, Rc. simpl length in Rn, Ru, Rc.
  destruct (Z.eq_dec (find NMEA_START buf) 0) as [En | En].
  { rewrite next_msg_nmea, take_nmea_eq by exact En.
    destruct (Z.eqb_spec (find CRLF buf) (-1)) as [Ec | Ec].
    - exists 0%nat. simpl. repeat split; lia.
    - exists (Z.to_nat (find CRLF buf + 2)). cbv zeta.
      destruct (NMEASentence_parse _) eqn:Ep; simpl; repeat split; try lia; exact Ep. }
  destruct (Z.eq_dec (find UBX_START buf) 0) as [Eu | Eu].
  { rewrite next_msg_ubx, take_ubx_eq by exact Eu.
    pose proof (declared_length_nonneg buf).
    destruct (Z.ltb_spec (len buf) 6).
    - exists 0%nat. simpl. repeat split; lia.
    - cbv zeta. rewrite Z.geb_leb.
      destruct (Z.leb_spec (declared_length buf + 8) (len buf)).
      + exists (Z.to_nat (declared_length buf + 8)). unfold len in *.
        simpl. repeat split; lia.
      + exists 0%nat. simpl. repeat split; lia. }
  destruct (Z.eq_dec (find NMEA_START buf) (-1)) as [An | An];
    destruct (Z.eq_dec (find UBX_START buf) (-1)) as [Au | Au].
  - rewrite next_msg_none by assumption. exists 0%nat. simpl. repeat split; lia.
  - rewrite (next_msg_skip buf (find UBX_START buf)) by (auto; lia).
    exists (Z.to_nat (find UBX_START buf)). simpl. repeat split; lia.
  - rewrite (next_msg_skip buf (find NMEA_START buf)) by (auto; lia).
    exists (Z.to_nat (find NMEA_START buf)). simpl. repeat split; lia.
  - rewrite (next_msg_skip buf (Z.min (find NMEA_START buf) (find UBX_START buf)))
      by (auto; try lia; left; repeat split; lia).
    exists (Z.to_nat (Z.min (find NMEA_START buf) (find UBX_START buf))).
    simpl. repeat split; lia.
Qed.

(** A call that returns a value or raises makes the buffer shorter. *)
Lemma next_msg_shrinks (buf : bytes) :
  fst (_next_msg buf) <> inl None ->
  (length (snd (_next_msg buf)) < length buf)%nat.
Proof.
  intros H. destruct (next_msg_shape buf) as (k & Hk & Hb & Hr).
  rewrite Hb, length_skipn.
  destruct (fst (_next_msg buf)) as [[[s | c] |] | [e |]];
    try contradiction; try (destruct Hr; lia).
Qed.

Lemma next_msg_never_longer (buf : bytes) :
  (length (snd (_next_msg buf)) <= length buf)%nat.
Proof.
  destruct (next_msg_shape buf) as (k & Hk & Hb & _).
  rewrite Hb, length_skipn. lia.
Qed.

(** ** Not ready *)

Lemma not_ready_returns_None (buf : bytes) :
  not_ready buf -> _next_msg buf = (inl None, buf).
Proof.
  intros [[Hn Hu] | [[Hn Hc] | [Hu Hl]]].
  - apply next_msg_none; assumption.
  - rewrite next_msg_nmea, take_nmea_eq by exact Hn. rewrite Hc. reflexivity.
  - rewrite next_msg_ubx, take_ubx_eq by exact Hu.
    destruct (Z.ltb_spec (len buf) 6); [reflexivity|]. cbv zeta.
    rewrite Z.geb_leb.
    destruct (Z.leb_spec (declared_length buf + 8) (len buf)); [lia | reflexivity].
Qed.

Lemma returns_None_not_ready (buf : bytes) :
  fst (_next_msg buf) = inl None -> not_ready buf.
Proof.
  pose proof (find_range NMEA_START buf) as Rn.
  pose proof (find_range UBX_START buf) as Ru.
  unfold not_ready.
  destruct (Z.eq_dec (find NMEA_START buf) 0) as [En | En].
  { rewrite next_msg_nmea, take_nmea_eq by exact En.
    destruct (Z.eqb_spec (find CRLF buf) (-1)) as [Ec | Ec]; [auto|].
    cbv zeta. destruct (NMEASentence_parse _); discriminate. }
  destruct (Z.eq_dec (find UBX_START buf) 0) as [Eu | Eu].
  { rewrite next_msg_ubx, take_ubx_eq by exact Eu.
    destruct (Z.ltb_spec (len buf) 6); [auto|]. cbv zeta.
    rewrite Z.geb_leb.
    destruct (Z.leb_spec (declared_length buf + 8) (len buf)); [discriminate | auto]. }
  destruct (Z.eq_dec (find NMEA_START buf) (-1)) as [An | An];
    destruct (Z.eq_dec (find UBX_START buf) (-1)) as [Au | Au]; [auto | | |].
  - rewrite (next_msg_skip buf (find UBX_START buf)) by (auto; lia). discriminate.
  - rewrite (next_msg_skip buf (find NMEA_START buf)) by (auto; lia). discriminate.
  - rewrite (next_msg_skip buf (Z.min (find NMEA_START buf) (find UBX_START buf)))
      by (auto; try lia; left; repeat split; lia).
    discriminate.
Qed.

(** C5: a detection call that returns no unit leaves the buffer exactly as
    it was, and it returns no unit in each of the three cases: neither
    marker anywhere in the buffer; [$] at offset 0 with no CRLF buffered;
    the UBX marker at offset 0 with fewer than 6 bytes, or fewer than the
    declared length plus 8, buffered. These are the only cases. *)
Theorem not_ready_leaves_buffer (buf : bytes) :
  not_ready buf \/ fst (_next_msg buf) = inl None ->
  _next_msg buf = (inl None, buf) /\ not_ready buf.
Proof.
  intros [H | H].
  - split; [apply not_ready_returns_None|]; exact H.
  - apply returns_None_not_ready in H.
    split; [apply not_ready_returns_None|]; exact H.
Qed.

(** ** Skipping *)

(** C6: with neither marker at offset 0, when both markers occur the
    detection call removes exactly the smaller of the two offsets from the
    front of the buffer, and when one marker occurs it removes exactly that
    marker's offset; the removed bytes are returned as they are, whatever
    the decoder. *)
Theorem skip_removes_offset (buf : bytes) (k : Z) :
  find NMEA_START buf <> 0 ->
  find UBX_START buf <> 0 ->
  (0 < find NMEA_START buf /\ 0 < find UBX_START buf
     /\ k = Z.min (find NMEA_START buf) (find UBX_START buf))
  \/ (0 < find NMEA_START buf /\ find UBX_START buf = -1 /\ k = find NMEA_START buf)
  \/ (find NMEA_START buf = -1 /\ 0 < find UBX_START buf /\ k = find UBX_START buf) ->
  _next_msg buf = (inl (Some (Raw (firstn (Z.to_nat k) buf))), skipn (Z.to_nat k) buf)
  /\ len (firstn (Z.to_nat k) buf) = k
  /\ len (skipn (Z.to_nat k) buf) = len buf - k
  /\ buf = firstn (Z.to_nat k) buf ++ skipn (Z.to_nat k) buf.
Proof.
  intros Hn Hu H.
  pose proof (find_range NMEA_START buf) as Rn.
  pose proof (find_range UBX_START buf) as Ru.
  unfold len in *. simpl length in Rn, Ru.
  assert (Hk : 0 < k <= Z.of_nat (length buf)) by lia.
  split; [|split; [|split]].
  - apply next_msg_skip; try assumption; lia.
  - rewrite length_firstn. lia.
  - rewrite length_skipn. lia.
  - symmetry. apply firstn_skipn.
Qed.

(** ** Draining the iterator *)

Lemma get_msgs_upto_fuel (f1 : nat) :
  forall f2 buf,
    (length buf < f1)%nat -> (length buf < f2)%nat ->
    get_msgs_upto f1 buf = get_msgs_upto f2 buf.
Proof.
  induction f1 as [|f1 IH]; intros [|f2] buf H1 H2; try lia.
  simpl. pose proof (next_msg_shrinks buf) as Hs.
  destruct (_next_msg buf) as [[[m |] | e] buf']; try reflexivity.
  simpl in Hs. rewrite (IH f2 buf'); [reflexivity | |];
    (assert (length buf' < length buf)%nat by (apply Hs; discriminate); lia).
Qed.

Lemma get_msgs_upto_ends (fuel : nat) :
  forall buf, (length buf < fuel)%nat ->
    snd (fst (get_msgs_upto fuel buf)) <> OutOfFuel.
Proof.
  induction fuel as [|fuel IH]; intros buf H; [lia|].
  simpl. pose proof (next_msg_shrinks buf) as Hs.
  destruct (_next_msg buf) as [[[m |] | e] buf']; simpl; try discriminate.
  simpl in Hs. specialize (IH buf').
  destruct (get_msgs_upto fuel buf') as [[ms e] b]. simpl in *.
  apply IH. assert (length buf' < length buf)%nat by (apply Hs; discriminate). lia.
Qed.

Lemma get_msgs_upto_count (fuel : nat) :
  forall buf,
    (length (fst (fst (get_msgs_upto fuel buf)))
     + length (snd (get_msgs_upto fuel buf)) <= length buf)%nat.
Proof.
  induction fuel as [|fuel IH]; intros buf; [simpl; lia|].
  simpl. pose proof (next_msg_shrinks buf) as Hs.
  pose proof (next_msg_never_longer buf) as Hl.
  destruct (_next_msg buf) as [[[m |] | e] buf']; simpl in *; try lia.
  specialize (IH buf').
  destruct (get_msgs_upto fuel buf') as [[ms e] b]. simpl in *.
  assert (length buf' < length buf)%nat by (apply Hs; discriminate). lia.
Qed.

(** The iterator's own recursion: one call, then the rest. *)
Lemma get_msgs_eq (buf : bytes) :
  get_msgs buf =
    match _next_msg buf with
    | (inl None, buf') => ([], Stopped, buf')
    | (inl (Some m), buf') =>
        let '(ms, e, buf'') := get_msgs buf' in (m :: ms, e, buf'')
    | (inr e, buf') => ([], Raises e, buf')
    end.
Proof.
  unfold get_msgs at 1. simpl. pose proof (next_msg_shrinks buf) as Hs.
  destruct (_next_msg buf) as [[[m |] | e] buf']; try reflexivity.
  simpl in Hs. unfold get_msgs.
  rewrite (get_msgs_upto_fuel (length buf) (S (length buf')) buf'); [reflexivity | | lia].
  apply Hs. discriminate.
Qed.

(** C7: the sequence of [get_msgs] is finite. Every call of the detection
    step that yields a unit removes at least one byte and no call makes the
    buffer longer, so one call more than the buffer has bytes always reaches
    the end of the sequence: more calls change nothing, the sequence ends
    (by [None] or by a raise of the decoder), and it has at most as many
    units as the buffer has bytes. *)
Theorem get_msgs_finite (buf : bytes) :
  (forall m buf', _next_msg buf = (inl (Some m), buf') ->
                  (length buf' < length buf)%nat)
  /\ (length (snd (_next_msg buf)) <= length buf)%nat
  /\ (forall fuel, (length buf < fuel)%nat -> get_msgs_upto fuel buf = get_msgs buf)
  /\ snd (fst (get_msgs buf)) <> OutOfFuel
  /\ (length (fst (fst (get_msgs buf))) <= length buf)%nat.
Proof.
  split; [|split; [|split; [|split]]].
  - intros m buf' H. pose proof (next_msg_shrinks buf) as Hs.
    rewrite H in Hs. apply Hs. discriminate.
  - apply next_msg_never_longer.
  - intros fuel H. apply get_msgs_upto_fuel; lia.
  - apply get_msgs_upto_ends. lia.
  - pose proof (get_msgs_upto_count (S (length buf)) buf). unfold get_msgs. lia.
Qed.

(** ** UBX extraction *)

Lemma get_msgs_nil : get_msgs [] = ([], Stopped, []).
Proof. reflexivity. Qed.

(** C4: with the UBX marker at offset 0 the detection call is the UBX
    extraction. With fewer than 6 bytes buffered it yields nothing; with the
    length read little-endian from offsets 4 and 5, it removes and returns
    exactly length + 8 bytes as one raw frame when that many are buffered,
    and yields nothing otherwise. A frame of declared payload length 10 fed
    one byte short of its 18 bytes yields no unit, and feeding the last
    byte yields exactly one frame, the 18 bytes. *)
Theorem take_ubx_frame (buf : bytes) :
  find UBX_START buf = 0 ->
  _next_msg buf = _take_ubx buf
  /\ (len buf < 6 -> _take_ubx buf = (inl None, buf))
  /\ (6 <= len buf -> len buf < declared_length buf + 8 ->
      unpack_H_le (slice 4 6 buf) = Some (declared_length buf)
      /\ _take_ubx buf = (inl None, buf))
  /\ (6 <= len buf -> declared_length buf + 8 <= len buf ->
      let k := Z.to_nat (declared_length buf + 8) in
      unpack_H_le (slice 4 6 buf) = Some (declared_length buf)
      /\ _take_ubx buf = (inl (Some (Raw (firstn k buf))), skipn k buf)
      /\ len (firstn k buf) = declared_length buf + 8)
  /\ (len buf = 18 -> declared_length buf = 10 ->
      stream_loop [firstn 17 buf; skipn 17 buf] init
      = ([[]; [Raw buf]], Stopped, [])).
Proof.
  intros Hu. split; [apply next_msg_ubx; exact Hu|].
  pose proof (declared_length_nonneg buf) as Hd.
  split; [|split; [|split]].
  - intros H. rewrite take_ubx_eq.
    destruct (Z.ltb_spec (len buf) 6); [reflexivity | lia].
  - intros H6 H. split; [apply header_slice; exact H6|]. rewrite take_ubx_eq.
    destruct (Z.ltb_spec (len buf) 6); [lia|]. cbv zeta. rewrite Z.geb_leb.
    destruct (Z.leb_spec (declared_length buf + 8) (len buf)); [lia | reflexivity].
  - intros H6 H. cbv zeta. split; [apply header_slice; exact H6|]. split.
    + rewrite take_ubx_eq.
      destruct (Z.ltb_spec (len buf) 6); [lia|]. cbv zeta. rewrite Z.geb_leb.
      destruct (Z.leb_spec (declared_length buf + 8) (len buf)); [reflexivity | lia].
    + unfold len in *. rewrite length_firstn. lia.
  - intros H18 H10.
    assert (Hshort : _next_msg (firstn 17 buf) = (inl None, firstn 17 buf)).
    { apply not_ready_returns_None. right. right. split.
      - apply find_zero. apply find_zero in Hu.
        unfold len in H18.
        do 3 (destruct buf as [|? buf]; [simpl in H18; lia|]). exact Hu.
      - right. unfold len in *. rewrite length_firstn.
        replace (declared_length (firstn 17 buf)) with (declared_length buf); [lia|].
        do 6 (destruct buf as [|? buf]; [simpl in H18; lia|]). reflexivity. }
    assert (Hfull : _next_msg buf = (inl (Some (Raw buf)), [])).
    { rewrite next_msg_ubx, take_ubx_eq by exact Hu.
      destruct (Z.ltb_spec (len buf) 6); [lia|]. cbv zeta. rewrite Z.geb_leb.
      destruct (Z.leb_spec (declared_length buf + 8) (len buf)); [|lia].
      rewrite H10. unfold len in H18.
      rewrite firstn_all2, skipn_all2 by lia. reflexivity. }
    cbn [stream_loop]. rewrite feed_eq. unfold init. cbn [app]. cbv beta iota.
    rewrite get_msgs_eq, Hshort. cbv beta iota.
    rewrite feed_eq, firstn_skipn. cbv beta iota.
    rewrite get_msgs_eq, Hfull, get_msgs_nil. reflexivity.
Qed.

(** ** What the iterator yields *)

Lemma startswith_firstn_keep (sub b : bytes) (n : nat) :
  startswith sub b = true -> (length sub <= n)%nat ->
  startswith sub (firstn n b) = true.
Proof.
  intros H Hn. apply startswith_app in H as [t ->].
  rewrite firstn_app, (firstn_all2 sub) by exact Hn. apply startswith_prefix.
Qed.

Lemma skipped_is_noise (buf : bytes) (k : Z) :
  0 < k <= len buf ->
  find NMEA_START buf = -1 \/ k <= find NMEA_START buf ->
  find UBX_START buf = -1 \/ k <= find UBX_START buf ->
  is_noise (Raw (firstn (Z.to_nat k) buf)) = true.
Proof.
  intros Hk Hn Hu. unfold is_noise, len in *.
  rewrite !absent_before by (try discriminate; lia).
  rewrite length_firstn.
  destruct (Z.eqb_spec (Z.of_nat (Nat.min (Z.to_nat k) (length buf))) 0); [lia | reflexivity].
Qed.

Lemma next_msg_yieldable (buf : bytes) (m : msg) :
  fst (_next_msg buf) = inl (Some m) -> yieldable m = true.
Proof.
  pose proof (find_range NMEA_START buf) as Rn.
  pose proof (find_range UBX_START buf) as Ru.
  unfold len in Rn, Ru. simpl length in Rn, Ru.
  destruct (Z.eq_dec (find NMEA_START buf) 0) as [En | En].
  { rewrite next_msg_nmea, take_nmea_eq by exact En.
    destruct (find CRLF buf =? -1); [discriminate|]. cbv zeta.
    destruct (NMEASentence_parse _); [|discriminate].
    intros [= <-]. reflexivity. }
  destruct (Z.eq_dec (find UBX_START buf) 0) as [Eu | Eu].
  { rewrite next_msg_ubx, take_ubx_eq by exact Eu.
    pose proof (declared_length_nonneg buf).
    destruct (len buf <? 6); [discriminate|]. cbv zeta.
    destruct (len buf >=? declared_length buf + 8); [|discriminate].
    intros [= <-]. unfold yieldable, is_nmea, is_ubx_frame.
    rewrite startswith_firstn_keep; [reflexivity | apply find_zero, Eu | simpl; lia]. }
  assert (Hskip : forall k,
    0 < k <= Z.of_nat (length buf) ->
    find NMEA_START buf = -1 \/ k <= find NMEA_START buf ->
    find UBX_START buf = -1 \/ k <= find UBX_START buf ->
    _next_msg buf = (inl (Some (Raw (firstn (Z.to_nat k) buf))), skipn (Z.to_nat k) buf) ->
    fst (_next_msg buf) = inl (Some m) -> yieldable m = true).
  { intros k Hk Hn Hu ->. intros [= <-]. unfold yieldable.
    rewrite (skipped_is_noise buf k) by (unfold len; assumption).
    apply orb_true_r. }
  destruct (Z.eq_dec (find NMEA_START buf) (-1)) as [An | An];
    destruct (Z.eq_dec (find UBX_START buf) (-1)) as [Au | Au].
  - rewrite next_msg_none by assumption. discriminate.
  - apply (Hskip (find UBX_START buf)); try lia.
    apply next_msg_skip; try assumption; lia.
  - apply (Hskip (find NMEA_START buf)); try lia.
    apply next_msg_skip; try assumption; lia.
  - apply (Hskip (Z.min (find NMEA_START buf) (find UBX_START buf))); try lia.
    apply next_msg_skip; try assumption; lia.
Qed.

Lemma get_msgs_upto_yieldable (fuel : nat) :
  forall buf, Forall (fun m => yieldable m = true) (fst (fst (get_msgs_upto fuel buf))).
Proof.
  induction fuel as [|fuel IH]; intros buf; simpl; [constructor|].
  pose proof (next_msg_yieldable buf) as Hy.
  destruct (_next_msg buf) as [[[m |] | e] buf']; simpl; try constructor.
  specialize (IH buf'). destruct (get_msgs_upto fuel buf') as [[ms e] b].
  simpl in *. constructor; [apply Hy; reflexivity | exact IH].
Qed.

Lemma do_calls_next (cs : list call) (buf : bytes) :
  do_calls (NextMsg :: cs) buf
  = (fst (_next_msg buf) :: fst (do_calls cs (snd (_next_msg buf))),
     snd (do_calls cs (snd (_next_msg buf)))).
Proof.
  cbn [do_calls do_call]. destruct (_next_msg buf) as [r buf'].
  cbn [fst snd]. destruct (do_calls cs buf') as [rs b]. reflexivity.
Qed.

(** The values [get_msgs_upto] yields are the values of as many
    successive calls of [_next_msg], and the call after them ends the
    sequence. *)
Lemma get_msgs_upto_calls (fuel : nat) :
  forall buf,
    match snd (fst (get_msgs_upto fuel buf)) with
    | Stopped =>
        do_calls (repeat NextMsg (S (length (fst (fst (get_msgs_upto fuel buf)))))) buf
        = (map (fun m => inl (Some m)) (fst (fst (get_msgs_upto fuel buf))) ++ [inl None],
           snd (get_msgs_upto fuel buf))
    | Raises e =>
        do_calls (repeat NextMsg (S (length (fst (fst (get_msgs_upto fuel buf)))))) buf
        = (map (fun m => inl (Some m)) (fst (fst (get_msgs_upto fuel buf))) ++ [inr e],
           snd (get_msgs_upto fuel buf))
    | OutOfFuel => True
    end.
Proof.
  induction fuel as [|fuel IH]; intros buf; [exact I|].
  cbn [get_msgs_upto].
  destruct (_next_msg buf) as [[[m |] | e] buf'] eqn:E.
  - specialize (IH buf').
    destruct (get_msgs_upto fuel buf') as [[ms e1] b1].
    cbn [fst snd] in *.
    destruct e1 as [| x |]; [| |exact I];
      cbn [length map app];
      change (repeat NextMsg (S (S (length ms))))
        with (NextMsg :: repeat NextMsg (S (length ms)));
      rewrite do_calls_next, E; cbn [fst snd]; rewrite IH; reflexivity.
  - cbn [fst snd length repeat map app]. rewrite do_calls_next, E. reflexivity.
  - cbn [fst snd length repeat map app]. rewrite do_calls_next, E. reflexivity.
Qed.

(** C1, as the code has it: [get_msgs] yields every value the detection
    step returns before it returns [None] (or the decoder raises), in
    order and nothing else: the yielded values are exactly the results of
    as many successive detection calls from the buffer, and the call after
    them returns [None] or raises. These values are decoded NMEA sentences,
    raw UBX frames, and the skipped spans too: when the detection step
    skips [k] bytes of noise, that span is yielded to the caller as a raw
    byte chunk, the first item of the sequence; it is not empty and holds
    neither marker. *)
Theorem get_msgs_yields_skipped_spans (buf : bytes) :
  match snd (fst (get_msgs buf)) with
  | Stopped =>
      do_calls (repeat NextMsg (S (length (fst (fst (get_msgs buf)))))) buf
      = (map (fun m => inl (Some m)) (fst (fst (get_msgs buf))) ++ [inl None],
         snd (get_msgs buf))
  | Raises e =>
      do_calls (repeat NextMsg (S (length (fst (fst (get_msgs buf)))))) buf
      = (map (fun m => inl (Some m)) (fst (fst (get_msgs buf))) ++ [inr e],
         snd (get_msgs buf))
  | OutOfFuel => False
  end
  /\ Forall (fun m => yieldable m = true) (fst (fst (get_msgs buf)))
  /\ (forall k,
        find NMEA_START buf <> 0 ->
        find UBX_START buf <> 0 ->
        (0 < find NMEA_START buf /\ 0 < find UBX_START buf
           /\ k = Z.min (find NMEA_START buf) (find UBX_START buf))
        \/ (0 < find NMEA_START buf /\ find UBX_START buf = -1
            /\ k = find NMEA_START buf)
        \/ (find NMEA_START buf = -1 /\ 0 < find UBX_START buf
            /\ k = find UBX_START buf) ->
        is_noise (Raw (firstn (Z.to_nat k) buf)) = true
        /\ get_msgs buf =
             (Raw (firstn (Z.to_nat k) buf)
                :: fst (fst (get_msgs (skipn (Z.to_nat k) buf))),
              snd (fst (get_msgs (skipn (Z.to_nat k) buf))),
              snd (get_msgs (skipn (Z.to_nat k) buf)))).
Proof.
  split.
  { pose proof (get_msgs_upto_calls (S (length buf)) buf) as Hc.
    pose proof (get_msgs_upto_ends (S (length buf)) buf ltac:(lia)) as He.
    unfold get_msgs.
    destruct (snd (fst (get_msgs_upto (S (length buf)) buf)));
      [exact Hc | exact Hc | contradiction He; reflexivity]. }
  split; [apply get_msgs_upto_yieldable|].
  intros k Hn Hu H.
  pose proof (find_range NMEA_START buf) as Rn.
  pose proof (find_range UBX_START buf) as Ru.
  unfold len in Rn, Ru. simpl length in Rn, Ru.
  split.
  - apply skipped_is_noise; unfold len; lia.
  - rewrite (get_msgs_eq buf), (next_msg_skip buf k) by (auto; lia).
    destruct (get_msgs (skipn (Z.to_nat k) buf)) as [[ms e] b]. reflexivity.
Qed.

(** ** The buffer is consumed from the front, once *)

Lemma do_call_consumes (c : call) (buf : bytes) :
  exists span,
    consumes c (fst (do_call c buf)) span
    /\ span ++ snd (do_call c buf) = buf ++ fed [c].
Proof.
  destruct c as [data |]; simpl.
  - exists []. split; [split; reflexivity|]. rewrite app_nil_r. reflexivity.
  - destruct (next_msg_shape buf) as (k & Hk & Hb & Hr).
    exists (firstn k buf). rewrite Hb, firstn_skipn, app_nil_r.
    split; [|reflexivity].
    assert (Hne : (0 < k)%nat -> firstn k buf <> []).
    { intros H0 E. apply (f_equal (@length byte)) in E.
      rewrite length_firstn in E. simpl in E. lia. }
    destruct (fst (_next_msg buf)) as [[[s | b] |] | [e |]]; simpl.
    + destruct Hr. auto.
    + destruct Hr. auto.
    + subst k. reflexivity.
    + destruct Hr. auto.
    + exact Hr.
Qed.

(** C8: [feed] appends to the back of the buffer and a detection call
    removes a prefix of it. So over any sequence of calls the stream (the
    buffer at the start, then all the bytes fed) is cut into the spans the
    calls consumed, one after the other, followed by the buffer that is
    left: each unit is made from its own span, no byte belongs to two
    spans, and the calls after an extraction see only bytes after it. *)
Theorem removed_bytes_never_revisited (cs : list call) (buf : bytes) :
  (forall data, snd (feed data buf) = buf ++ data)
  /\ (exists k, snd (_next_msg buf) = skipn k buf)
  /\ (exists spans,
        accounts cs (fst (do_calls cs buf)) spans
        /\ concat spans ++ snd (do_calls cs buf) = buf ++ fed cs).
Proof.
  split; [reflexivity|]. split.
  { destruct (next_msg_shape buf) as (k & _ & Hb & _). exists k. exact Hb. }
  revert buf. induction cs as [|c cs IH]; intros buf.
  - exists []. simpl. rewrite app_nil_r. split; [exact I | reflexivity].
  - destruct (do_call_consumes c buf) as (span & Hc & Hs).
    cbn [do_calls]. destruct (do_call c buf) as [r buf']. simpl in Hc, Hs.
    destruct (IH buf') as (spans & Ha & Hcat).
    destruct (do_calls cs buf') as [rs buf'']. simpl in Ha, Hcat.
    exists (span :: spans). split; [split; assumption|].
    cbn [concat fst snd]. rewrite <- app_assoc, Hcat, app_assoc, Hs.
    rewrite <- app_assoc. f_equal.
    destruct c; simpl; rewrite ?app_nil_r; reflexivity.
Qed.

(** ** A sentence fed in pieces *)

(** A proper prefix of a sentence whose first CRLF is its terminator. *)
Lemma pending_sentence_not_ready (body p rest : bytes) :
  startswith NMEA_START (body ++ CRLF) = true ->
  find CRLF (body ++ CRLF) = len body ->
  p ++ rest = body ++ CRLF ->
  rest <> [] ->
  not_ready p.
Proof.
  intros Hstart Hcrlf Hp Hrest.
  destruct p as [|c p].
  - left. split; reflexivity.
  - right. left. split.
    + apply find_zero. rewrite <- Hp in Hstart. exact Hstart.
    + destruct (find_cases CRLF (c :: p)) as [[H _] | (k & _ & Hs & _ & Hl)]; [exact H|].
      exfalso.
      destruct (find_cases CRLF (body ++ CRLF)) as [[H _] | (k' & Hf & _ & Hb & _)].
      * pose proof (len_nonneg body). lia.
      * assert (Hk : (k < k')%nat).
        { apply (f_equal (@length byte)) in Hp. rewrite !length_app in Hp.
          destruct rest; [contradiction|]. unfold len in Hcrlf.
          simpl in Hp, Hl. lia. }
        specialize (Hb k Hk). rewrite <- Hp in Hb.
        rewrite skipn_app in Hb.
        rewrite (startswith_app_l _ _ _ Hs) in Hb. discriminate.
Qed.

Lemma get_msgs_not_ready (buf : bytes) :
  not_ready buf -> get_msgs buf = ([], Stopped, buf).
Proof.
  intros H. rewrite get_msgs_eq, not_ready_returns_None by exact H. reflexivity.
Qed.

Lemma get_msgs_whole_sentence (body : bytes) (s : Sentence) :
  startswith NMEA_START (body ++ CRLF) = true ->
  find CRLF (body ++ CRLF) = len body ->
  NMEASentence_parse (body ++ CRLF) = inl s ->
  get_msgs (body ++ CRLF) = ([Nmea s], Stopped, []).
Proof.
  intros Hstart Hcrlf Hparse.
  rewrite get_msgs_eq, next_msg_nmea, take_nmea_eq by (apply find_zero; exact Hstart).
  rewrite Hcrlf. pose proof (len_nonneg body).
  destruct (Z.eqb_spec (len body) (-1)); [lia|]. cbv zeta.
  assert (Hk : Z.to_nat (len body + 2) = length (body ++ CRLF)).
  { unfold len. rewrite length_app. simpl. lia. }
  rewrite Hk, firstn_all, skipn_all, Hparse. reflexivity.
Qed.

Lemma stream_loop_pending (body : bytes) (chunks : list bytes) :
  startswith NMEA_START (body ++ CRLF) = true ->
  find CRLF (body ++ CRLF) = len body ->
  forall (pre : list bytes) (buf rest : bytes),
    buf ++ concat pre ++ rest = body ++ CRLF ->
    rest <> [] ->
    stream_loop (pre ++ chunks) buf =
      (map (fun _ => []) pre ++ fst (fst (stream_loop chunks (buf ++ concat pre))),
       snd (fst (stream_loop chunks (buf ++ concat pre))),
       snd (stream_loop chunks (buf ++ concat pre))).
Proof.
  intros Hstart Hcrlf. induction pre as [|b pre IH]; intros buf rest Hcat Hrest.
  - simpl. rewrite app_nil_r.
    destruct (stream_loop chunks buf) as [[mss e] b]. reflexivity.
  - cbn [app stream_loop concat map]. rewrite feed_eq. cbv beta iota.
    rewrite get_msgs_not_ready.
    + cbv beta iota. rewrite (IH (buf ++ b) rest).
      * rewrite <- app_assoc. reflexivity.
      * rewrite <- Hcat. simpl. rewrite <- !app_assoc. reflexivity.
      * exact Hrest.
    + apply (pending_sentence_not_ready body (buf ++ b) (concat pre ++ rest));
        try assumption.
      * rewrite <- Hcat. simpl. rewrite <- !app_assoc. reflexivity.
      * intros E. apply app_eq_nil in E as [_ E]. contradiction.
Qed.

(** C9: a well-formed sentence (it begins with [$], ends with CRLF, has no
    CRLF before, and the decoder accepts it) fed to a fresh parser in any
    chunks, the messages being drained after each chunk: no unit is yielded
    before the chunk that completes the sentence, and that chunk yields
    exactly one unit, the sentence decoded from the first [crlf_ix + 2]
    bytes, which are the whole sentence; the buffer is then empty. *)
Theorem nmea_fed_in_chunks
  (body : bytes) (s : Sentence) (pre : list bytes) (final : bytes) :
  startswith NMEA_START (body ++ CRLF) = true ->
  find CRLF (body ++ CRLF) = len body ->
  NMEASentence_parse (body ++ CRLF) = inl s ->
  concat pre ++ final = body ++ CRLF ->
  final <> [] ->
  stream_loop (pre ++ [final]) init = (map (fun _ => []) pre ++ [[Nmea s]], Stopped, [])
  /\ firstn (Z.to_nat (find CRLF (body ++ CRLF) + 2)) (body ++ CRLF) = body ++ CRLF.
Proof.
  intros Hstart Hcrlf Hparse Hcat Hfinal. split.
  - rewrite (stream_loop_pending body [final] Hstart Hcrlf pre init final);
      [| exact Hcat | exact Hfinal].
    unfold init. cbn [app stream_loop]. rewrite feed_eq. cbv beta iota.
    rewrite Hcat, (get_msgs_whole_sentence body s) by assumption.
    reflexivity.
  - rewrite Hcrlf. apply firstn_all2. unfold len. rewrite length_app. simpl. lia.
Qed.

(** ** A serialised message read back *)

Lemma split_at_length (a b : bytes) (n : nat) :
  length a = n -> firstn n (a ++ b) = a /\ skipn n (a ++ b) = b.
Proof.
  intros <-. split.
  - rewrite firstn_app, Nat.sub_diag, firstn_all. simpl. apply app_nil_r.
  - rewrite skipn_app, Nat.sub_diag, skipn_all. reflexivity.
Qed.

(** C10, for a [msg_id] of 2 bytes (the code takes a [msg_id] of any
    length, and the length field is at offsets 4 and 5 only for 2 bytes):
    the bytes [serialise] makes of a message with a 2-byte [msg_id] and a
    payload of at most 65535 bytes, fed to a fresh parser and drained,
    yield exactly one raw frame, the first payload length + 8 bytes; the
    two trailing bytes [10 13] stay in the buffer. *)
Theorem serialised_frame_leaves_trailer (m : UBXMessage) :
  length (msg_id m) = 2%nat ->
  len (payload m) <= 65535 ->
  exists out,
    serialise m = Some out
    /\ get_msgs (snd (feed out init))
       = ([Raw (firstn (Z.to_nat (len (payload m) + 8)) out)], Stopped, [x10; x13])
    /\ out = firstn (Z.to_nat (len (payload m) + 8)) out ++ [x10; x13].
Proof.
  intros Hid Hlen.
  destruct (serialise_eq m Hlen) as (lo & hi & x & y & Hv & _ & Hs).
  eexists. split; [exact Hs|].
  destruct m as [mid pl]. cbn [msg_id payload] in *.
  destruct mid as [|i0 [|i1 [|? ?]]]; try discriminate.
  pose proof (len_nonneg pl) as Hpl.
  set (out := [xb5; x62] ++ ([i0; i1] ++ [lo; hi] ++ pl) ++ [x; y] ++ [x10; x13]).
  assert (Hout : out = [xb5; x62] ++ ([i0; i1] ++ [lo; hi] ++ pl) ++ [x; y] ++ [x10; x13])
    by reflexivity.
  assert (Hl : len out = len pl + 10).
  { rewrite Hout, !len_app. unfold len. simpl length. lia. }
  assert (Hsplit : out = (xb5 :: x62 :: i0 :: i1 :: lo :: hi :: pl ++ [x; y]) ++ [x10; x13]).
  { rewrite Hout. simpl. rewrite <- app_assoc. reflexivity. }
  destruct (split_at_length (xb5 :: x62 :: i0 :: i1 :: lo :: hi :: pl ++ [x; y])
              [x10; x13] (Z.to_nat (len pl + 8))) as [Hfirst Hskip].
  { simpl. rewrite length_app. unfold len. simpl. lia. }
  rewrite <- Hsplit in Hfirst, Hskip.
  assert (Hd : declared_length out = len pl).
  { rewrite Hout. exact Hv. }
  assert (Hu : find UBX_START out = 0).
  { rewrite Hout. reflexivity. }
  split.
  - rewrite feed_eq. unfold init. cbn [snd app].
    rewrite get_msgs_eq, next_msg_ubx, take_ubx_eq by exact Hu.
    destruct (Z.ltb_spec (len out) 6); [lia|]. cbv zeta. rewrite Z.geb_leb, Hd.
    destruct (Z.leb_spec (len pl + 8) (len out)); [|lia].
    rewrite Hskip. reflexivity.
  - rewrite Hfirst. exact Hsplit.
Qed.

(** ** More on the checksum *)

Lemma mod_256_shift (x y q : Z) : x = y + 256 * q -> x mod 256 = y mod 256.
Proof.
  intros ->. rewrite Z.mul_comm. apply Z_mod_plus_full.
Qed.

Lemma total_app (l1 l2 : list Z) : total (l1 ++ l2) = total l1 + total l2.
Proof.
  induction l1 as [|c l1 IH]; simpl; [reflexivity | rewrite IH; lia].
Qed.

Lemma weighted_total_app (l1 l2 : list Z) :
  weighted_total (l1 ++ l2)
  = weighted_total l1 + Z.of_nat (length l2) * total l1 + weighted_total l2.
Proof.
  induction l1 as [|c l1 IH]; [simpl; lia|].
  cbn [app weighted_total total]. rewrite IH.
  cbn [length]. rewrite length_app. lia.
Qed.

Lemma checksum_reference_closed (cs : list Z) :
  forall a b, 0 <= a < 256 -> 0 <= b < 256 ->
    checksum_reference a b cs
    = ((a + total cs) mod 256,
       (b + Z.of_nat (length cs) * a + weighted_total cs) mod 256).
Proof.
  induction cs as [|c cs IH]; intros a b Ha Hb.
  - simpl. rewrite !Z.add_0_r, !Z.mod_small by lia. reflexivity.
  - cbn [checksum_reference total weighted_total].
    rewrite IH by (apply Z.mod_pos_bound; lia).
    pose proof (Z.div_mod (a + c) 256 ltac:(lia)) as Ea.
    pose proof (Z.div_mod (b + (a + c) mod 256) 256 ltac:(lia)) as Eb.
    set (qa := (a + c) / 256) in *. set (ra := (a + c) mod 256) in *.
    set (qb := (b + ra) / 256) in *. set (rb := (b + ra) mod 256) in *.
    set (n := Z.of_nat (length cs)).
    replace (Z.of_nat (length (c :: cs))) with (n + 1) by (cbn [length]; lia).
    f_equal.
    + apply (mod_256_shift _ _ (- qa)). lia.
    + apply (mod_256_shift _ _ (- qb - (n + 1) * qa)).
      replace rb with (b + ra - 256 * qb) by lia.
      replace ra with (a + c - 256 * qa) by lia. ring.
Qed.

Lemma ubx_checksum_value (msg : bytes) :
  ubx_checksum msg
  = Some [byte_of_int (total (iter_ints msg) mod 256);
          byte_of_int (weighted_total (iter_ints msg) mod 256)].
Proof.
  unfold ubx_checksum.
  rewrite ubx_checksum_loop_reference, checksum_reference_closed by lia.
  rewrite Z.mul_0_r, !Z.add_0_l.
  pose proof (Z.mod_pos_bound (total (iter_ints msg)) 256 ltac:(lia)).
  pose proof (Z.mod_pos_bound (weighted_total (iter_ints msg)) 256 ltac:(lia)).
  unfold pack_BB.
  repeat match goal with
    | |- context [?x <=? ?y] =>
        replace (x <=? y) with true by (symmetry; apply Z.leb_le; lia)
    end.
  reflexivity.
Qed.

Lemma int_of_byte_inj (c c' : byte) : int_of_byte c = int_of_byte c' -> c = c'.
Proof.
  unfold int_of_byte. intros H. apply N2Z.inj in H.
  pose proof (Byte.of_to_N c) as E. rewrite H, Byte.of_to_N in E.
  congruence.
Qed.

(** X1: the two checksum bytes in closed form: the first is the sum of the
    message's bytes modulo 256; the second is, modulo 256, the sum in which
    each byte counts once for every byte from it to the end. *)
Theorem ubx_checksum_closed_form (msg : bytes) :
  exists x y,
    ubx_checksum msg = Some [x; y]
    /\ int_of_byte x = total (map int_of_byte msg) mod 256
    /\ int_of_byte y = weighted_total (map int_of_byte msg) mod 256.
Proof.
  change (map int_of_byte msg) with (iter_ints msg).
  do 2 eexists. split; [apply ubx_checksum_value|].
  split; apply int_of_byte_of_int, Z.mod_pos_bound; lia.
Qed.

Lemma mod_256_differ (x y : Z) :
  x <> y -> -256 < x - y < 256 -> forall s, (s + x) mod 256 <> (s + y) mod 256.
Proof.
  intros Hne Hr s E.
  pose proof (Z.div_mod (s + x) 256 ltac:(lia)).
  pose proof (Z.div_mod (s + y) 256 ltac:(lia)).
  lia.
Qed.

(** X2: a change of one byte of a message changes its checksum. *)
Theorem ubx_checksum_detects_byte_change (pre post : bytes) (c c' : byte) :
  c <> c' ->
  ubx_checksum (pre ++ c :: post) <> ubx_checksum (pre ++ c' :: post).
Proof.
  intros Hne E. rewrite !ubx_checksum_value in E.
  injection E as Ea _.
  apply (f_equal int_of_byte) in Ea.
  rewrite !int_of_byte_of_int in Ea by (apply Z.mod_pos_bound; lia).
  unfold iter_ints in Ea. rewrite !map_app, !total_app in Ea.
  cbn [map total] in Ea.
  pose proof (int_of_byte_range c). pose proof (int_of_byte_range c').
  assert (Hc : int_of_byte c <> int_of_byte c')
    by (intros H1; apply Hne, int_of_byte_inj, H1).
  set (t := total (map int_of_byte pre)) in *.
  set (u := total (map int_of_byte post)) in *.
  apply (mod_256_differ (int_of_byte c) (int_of_byte c') Hc ltac:(lia) (t + u)).
  replace (t + u + int_of_byte c) with (t + (int_of_byte c + u)) by lia.
  replace (t + u + int_of_byte c') with (t + (int_of_byte c' + u)) by lia.
  exact Ea.
Qed.

(** X3: the checksum depends on the order of the bytes: exchanging two
    neighbouring bytes that differ changes it. *)
Theorem ubx_checksum_detects_swap (pre post : bytes) (c c' : byte) :
  c <> c' ->
  ubx_checksum (pre ++ c :: c' :: post) <> ubx_checksum (pre ++ c' :: c :: post).
Proof.
  intros Hne E. rewrite !ubx_checksum_value in E.
  injection E as _ Eb.
  apply (f_equal int_of_byte) in Eb.
  rewrite !int_of_byte_of_int in Eb by (apply Z.mod_pos_bound; lia).
  unfold iter_ints in Eb. rewrite !map_app, !weighted_total_app in Eb.
  cbn [map weighted_total length] in Eb.
  pose proof (int_of_byte_range c). pose proof (int_of_byte_range c').
  assert (Hc : int_of_byte c' <> int_of_byte c)
    by (intros H1; apply Hne; symmetry; apply int_of_byte_inj, H1).
  rewrite !Nat2Z.inj_succ in Eb.
  set (n := Z.of_nat (length (map int_of_byte post))) in *.
  set (w := weighted_total (map int_of_byte post)) in *.
  set (p := weighted_total (map int_of_byte pre)) in *.
  set (t := total (map int_of_byte pre)) in *.
  apply (mod_256_differ (int_of_byte c') (int_of_byte c) Hc ltac:(lia)
           (p + (n + 2) * t + w + (n + 1) * int_of_byte c + (n + 1) * int_of_byte c')).
  symmetry in Eb.
  etransitivity; [etransitivity; [|exact Eb]|]; f_equal; ring.
Qed.

(** ** More on serialisation *)

Lemma serialise_too_long (m : UBXMessage) :
  65535 < len (payload m) -> serialise m = None.
Proof.
  intros H. unfold serialise, pack_H_le.
  destruct (Z.leb_spec (len (payload m)) 65535); [lia|].
  rewrite andb_false_r. reflexivity.
Qed.

(** X4: [serialise] raises ([struct.error], from packing the length) exactly
    when the payload is longer than 65535 bytes; otherwise it returns a
    frame that begins with the UBX marker and is 8 bytes longer than
    [msg_id] and payload together. *)
Theorem serialise_fails_iff_oversized (m : UBXMessage) :
  (serialise m = None <-> 65535 < len (payload m))
  /\ (forall out, serialise m = Some out ->
        startswith UBX_START out = true
        /\ len out = len (msg_id m) + len (payload m) + 8).
Proof.
  split; [split|].
  - intros H. destruct (Z.le_gt_cases (len (payload m)) 65535) as [Hle | Hgt]; [|lia].
    destruct (serialise_eq m Hle) as (lo & hi & x & y & _ & _ & Hs). congruence.
  - apply serialise_too_long.
  - intros out Hs.
    destruct (Z.le_gt_cases (len (payload m)) 65535) as [Hle | Hgt].
    + destruct (serialise_eq m Hle) as (lo & hi & x & y & _ & _ & Hs').
      rewrite Hs' in Hs. injection Hs as <-. split; [reflexivity|].
      unfold len. cbn [app length]. rewrite !length_app. cbn [length]. lia.
    + rewrite serialise_too_long in Hs by lia. discriminate.
Qed.

Lemma app_eq_same_length (a a' b b' : bytes) :
  a ++ b = a' ++ b' -> length a = length a' -> a = a' /\ b = b'.
Proof.
  intros E Hl.
  destruct (split_at_length a b (length a) eq_refl) as [Hf Hs].
  destruct (split_at_length a' b' (length a) (eq_sym Hl)) as [Hf' Hs'].
  rewrite E in Hf, Hs. split; congruence.
Qed.

(** X5: two messages with 2-byte [msg_id]s that serialise to the same bytes
    are the same message. *)
Theorem serialise_injective (m1 m2 : UBXMessage) (out : bytes) :
  length (msg_id m1) = 2%nat ->
  length (msg_id m2) = 2%nat ->
  serialise m1 = Some out ->
  serialise m2 = Some out ->
  m1 = m2.
Proof.
  intros Hid1 Hid2 Hs1 Hs2.
  assert (Hle1 : len (payload m1) <= 65535).
  { destruct (Z.le_gt_cases (len (payload m1)) 65535) as [H | H]; [exact H|].
    rewrite serialise_too_long in Hs1 by lia. discriminate. }
  assert (Hle2 : len (payload m2) <= 65535).
  { destruct (Z.le_gt_cases (len (payload m2)) 65535) as [H | H]; [exact H|].
    rewrite serialise_too_long in Hs2 by lia. discriminate. }
  destruct (serialise_eq m1 Hle1) as (lo1 & hi1 & x1 & y1 & Hv1 & _ & E1).
  destruct (serialise_eq m2 Hle2) as (lo2 & hi2 & x2 & y2 & Hv2 & _ & E2).
  rewrite E1 in Hs1. rewrite E2 in Hs2. rewrite <- Hs2 in Hs1.
  destruct m1 as [id1 pl1], m2 as [id2 pl2]. cbn [msg_id payload] in *.
  destruct id1 as [|a1 [|b1 [|? ?]]]; try discriminate.
  destruct id2 as [|a2 [|b2 [|? ?]]]; try discriminate.
  cbn [app] in Hs1. injection Hs1 as -> -> -> -> Hrest.
  apply app_eq_same_length in Hrest as [-> _]; [reflexivity|].
  unfold len in Hv1, Hv2. lia.
Qed.

(** ** More data behind the buffer *)

Lemma startswith_app_inv (sub : bytes) :
  forall b d, startswith sub (b ++ d) = true -> (length sub <= length b)%nat ->
              startswith sub b = true.
Proof.
  induction sub as [|x sub IH]; intros b d H Hl; [reflexivity|].
  destruct b as [|y b]; [simpl in Hl; lia|].
  simpl in *. apply andb_true_iff in H as [Hxy H].
  rewrite Hxy, (IH b d H) by lia. reflexivity.
Qed.

Lemma split_app (b d : bytes) (k : nat) :
  (k <= length b)%nat ->
  firstn k (b ++ d) = firstn k b /\ skipn k (b ++ d) = skipn k b ++ d.
Proof.
  intros H. rewrite firstn_app, skipn_app.
  replace (k - length b)%nat with 0%nat by lia.
  simpl. rewrite app_nil_r. split; reflexivity.
Qed.

Lemma first_at_app (sub b d : bytes) (k : nat) :
  first_at sub b k -> first_at sub (b ++ d) k.
Proof.
  intros (Hs & Hb & Hl). repeat split.
  - destruct (split_app b d k ltac:(lia)) as [_ ->]. apply startswith_app_l, Hs.
  - intros j Hj. destruct (split_app b d j ltac:(lia)) as [_ ->].
    destruct (startswith sub (skipn j b ++ d)) eqn:E; [|reflexivity].
    apply startswith_app_inv in E; [rewrite (Hb j Hj) in E; discriminate|].
    rewrite length_skipn. lia.
  - rewrite length_app. lia.
Qed.

(** An occurrence found in the buffer stays the first when bytes are
    appended. *)
Lemma find_app_found (sub b d : bytes) :
  find sub b <> -1 -> find sub (b ++ d) = find sub b.
Proof.
  intros H. destruct (find_cases sub b) as [[E _] | (k & E & Hk)]; [contradiction|].
  rewrite E. apply find_first_at, first_at_app, Hk.
Qed.

(** An occurrence that appears when bytes are appended ends behind the old
    end of the buffer. *)
Lemma find_app_absent (sub b d : bytes) :
  find sub b = -1 ->
  find sub (b ++ d) = -1 \/ len b < find sub (b ++ d) + len sub.
Proof.
  intros H.
  destruct (find_cases sub b) as [[_ Ha] | (k & E & _)]; [|lia].
  destruct (find_cases sub (b ++ d)) as [[E _] | (k & E & Hs & _)]; [left; exact E|].
  right. rewrite E. unfold len.
  destruct (Nat.le_gt_cases (k + length sub) (length b)) as [Hin | Hout]; [|lia].
  destruct (split_app b d k ltac:(lia)) as [_ Hk]. rewrite Hk in Hs.
  apply startswith_app_inv in Hs; [|rewrite length_skipn; lia].
  rewrite Ha in Hs. discriminate.
Qed.

Lemma declared_length_app (buf d : bytes) :
  6 <= len buf -> declared_length (buf ++ d) = declared_length buf.
Proof.
  intros H. unfold declared_length, len in *.
  rewrite !app_nth1 by lia. reflexivity.
Qed.

(** A unit that can be taken from the buffer is taken the same, whatever
    bytes come behind it. *)
Lemma next_msg_app (buf d : bytes) :
  fst (_next_msg buf) <> inl None ->
  _next_msg (buf ++ d) = (fst (_next_msg buf), snd (_next_msg buf) ++ d).
Proof.
  pose proof (find_range NMEA_START buf) as Rn.
  pose proof (find_range UBX_START buf) as Ru.
  pose proof (find_range CRLF buf) as Rc.
  unfold len in Rn, Ru, Rc. simpl length in Rn, Ru, Rc.
  destruct (Z.eq_dec (find NMEA_START buf) 0) as [En | En].
  { assert (En' : find NMEA_START (buf ++ d) = 0) by (rewrite find_app_found; lia).
    rewrite (next_msg_nmea buf En), (next_msg_nmea (buf ++ d) En'), !take_nmea_eq.
    destruct (Z.eqb_spec (find CRLF buf) (-1)) as [Ec | Ec].
    - intros H. contradiction H. reflexivity.
    - intros _. rewrite find_app_found by exact Ec.
      destruct (Z.eqb_spec (find CRLF buf) (-1)); [contradiction|]. cbv zeta.
      destruct (split_app buf d (Z.to_nat (find CRLF buf + 2)) ltac:(lia)) as [-> ->].
      destruct (NMEASentence_parse _); reflexivity. }
  destruct (Z.eq_dec (find UBX_START buf) 0) as [Eu | Eu].
  { assert (Eu' : find UBX_START (buf ++ d) = 0) by (rewrite find_app_found; lia).
    rewrite (next_msg_ubx buf Eu), (next_msg_ubx (buf ++ d) Eu'), !take_ubx_eq.
    pose proof (declared_length_nonneg buf) as Hd.
    destruct (Z.ltb_spec (len buf) 6) as [H6 | H6].
    - intros H. contradiction H. reflexivity.
    - cbv zeta. rewrite Z.geb_leb.
      destruct (Z.leb_spec (declared_length buf + 8) (len buf)) as [Hl | Hl].
      + intros _. rewrite declared_length_app by exact H6.
        rewrite len_app. pose proof (len_nonneg d).
        destruct (Z.ltb_spec (len buf + len d) 6); [lia|].
        rewrite Z.geb_leb.
        destruct (Z.leb_spec (declared_length buf + 8) (len buf + len d)); [|lia].
        unfold len in Hl.
        destruct (split_app buf d (Z.to_nat (declared_length buf + 8)) ltac:(lia))
          as [-> ->].
        reflexivity.
      + intros H. contradiction H. reflexivity. }
  assert (Hskip : forall k,
    0 < k <= Z.of_nat (length buf) ->
    _next_msg buf = (inl (Some (Raw (firstn (Z.to_nat k) buf))), skipn (Z.to_nat k) buf) ->
    _next_msg (buf ++ d)
    = (inl (Some (Raw (firstn (Z.to_nat k) (buf ++ d)))), skipn (Z.to_nat k) (buf ++ d)) ->
    _next_msg (buf ++ d) = (fst (_next_msg buf), snd (_next_msg buf) ++ d)).
  { intros k Hk -> ->. simpl.
    destruct (split_app buf d (Z.to_nat k) ltac:(lia)) as [-> ->]. reflexivity. }
  pose proof (find_range NMEA_START (buf ++ d)) as Rn'.
  pose proof (find_range UBX_START (buf ++ d)) as Ru'.
  unfold len in Rn', Ru'. simpl length in Rn', Ru'.
  destruct (Z.eq_dec (find NMEA_START buf) (-1)) as [An | An];
    destruct (Z.eq_dec (find UBX_START buf) (-1)) as [Au | Au].
  - rewrite next_msg_none by assumption. intros H. contradiction H. reflexivity.
  - intros _. pose proof (find_app_found UBX_START buf d Au) as Fu.
    pose proof (find_app_absent NMEA_START buf d An) as Fn.
    unfold len in Fn. simpl length in Fn.
    apply (Hskip (find UBX_START buf)); [lia | |];
      apply next_msg_skip; try lia.
  - intros _. pose proof (find_app_found NMEA_START buf d An) as Fn.
    pose proof (find_app_absent UBX_START buf d Au) as Fu.
    unfold len in Fu. simpl length in Fu.
    apply (Hskip (find NMEA_START buf)); [lia | |];
      apply next_msg_skip; try lia.
  - intros _. pose proof (find_app_found NMEA_START buf d An) as Fn.
    pose proof (find_app_found UBX_START buf d Au) as Fu.
    apply (Hskip (Z.min (find NMEA_START buf) (find UBX_START buf))); [lia | |];
      apply next_msg_skip; try lia.
Qed.

(** ** Chunk boundaries *)

Lemma get_msgs_upto_stopped (fuel : nat) :
  forall buf ms b, get_msgs_upto fuel buf = (ms, Stopped, b) -> not_ready b.
Proof.
  induction fuel as [|fuel IH]; intros buf ms b H; [discriminate|].
  simpl in H. destruct (_next_msg buf) as [[[m |] | e] buf'] eqn:E.
  - destruct (get_msgs_upto fuel buf') as [[ms1 e1] b1] eqn:E1.
    injection H as _ -> ->. eapply IH, E1.
  - injection H as _ <-.
    pose proof (returns_None_not_ready buf) as Hn. rewrite E in Hn.
    specialize (Hn eq_refl).
    rewrite (not_ready_returns_None buf Hn) in E. injection E as <-. exact Hn.
  - discriminate.
Qed.




(** X7: draining is idempotent: when [get_msgs] has stopped, draining again
    without feeding yields nothing and leaves the buffer as it is. *)
Theorem drained_stays_drained (buf : bytes) (ms : list msg) (b : bytes) :
  get_msgs buf = (ms, Stopped, b) ->
  get_msgs b = ([], Stopped, b) /\ _next_msg b = (inl None, b).
Proof.
  intros H. assert (Hb : not_ready b) by (eapply get_msgs_upto_stopped, H).
  split; [apply get_msgs_not_ready | apply not_ready_returns_None]; exact Hb.
Qed.

(** ** The four ways of a detection call *)

Lemma next_msg_cases (buf : bytes) :
  (find NMEA_START buf = 0 /\ _next_msg buf = _take_nmea buf)
  \/ (find UBX_START buf = 0 /\ _next_msg buf = _take_ubx buf)
  \/ (exists k,
        0 < k <= len buf
        /\ (find NMEA_START buf = -1 \/ k <= find NMEA_START buf)
        /\ (find UBX_START buf = -1 \/ k <= find UBX_START buf)
        /\ (k = find NMEA_START buf \/ k = find UBX_START buf)
        /\ _next_msg buf
           = (inl (Some (Raw (firstn (Z.to_nat k) buf))), skipn (Z.to_nat k) buf))
  \/ (find NMEA_START buf = -1 /\ find UBX_START buf = -1
      /\ _next_msg buf = (inl None, buf)).
Proof.
  pose proof (find_range NMEA_START buf) as Rn.
  pose proof (find_range UBX_START buf) as Ru.
  unfold len in *. simpl length in Rn, Ru.
  destruct (Z.eq_dec (find NMEA_START buf) 0) as [En | En].
  { left. split; [exact En | apply next_msg_nmea, En]. }
  destruct (Z.eq_dec (find UBX_START buf) 0) as [Eu | Eu].
  { right. left. split; [exact Eu | apply next_msg_ubx, Eu]. }
  right. right.
  destruct (Z.eq_dec (find NMEA_START buf) (-1)) as [An | An];
    destruct (Z.eq_dec (find UBX_START buf) (-1)) as [Au | Au].
  - right. repeat split; try assumption. apply next_msg_none; assumption.
  - left. exists (find UBX_START buf).
    repeat split; try lia. apply next_msg_skip; try assumption; lia.
  - left. exists (find NMEA_START buf).
    repeat split; try lia. apply next_msg_skip; try assumption; lia.
  - left. exists (Z.min (find NMEA_START buf) (find UBX_START buf)).
    repeat split; try lia. apply next_msg_skip; try assumption; lia.
Qed.

(** ** Frames *)

Lemma noise_not_frame (b : bytes) :
  is_noise (Raw b) = true -> startswith UBX_START b = false.
Proof.
  unfold is_noise. intros H.
  apply andb_true_iff in H as [_ H]. apply Z.eqb_eq in H.
  destruct (startswith UBX_START b) eqn:E; [|reflexivity].
  apply find_zero in E. lia.
Qed.

Lemma next_msg_well_framed (buf : bytes) (m : msg) :
  fst (_next_msg buf) = inl (Some m) -> well_framed m = true.
Proof.
  destruct (next_msg_cases buf) as [[_ ->] | [[Eu ->] | [(k & Hk & Hn & Hu & _ & ->) | (_ & _ & ->)]]].
  - rewrite take_nmea_eq. destruct (find CRLF buf =? -1); [discriminate|].
    cbv zeta. destruct (NMEASentence_parse _); [|discriminate].
    intros [= <-]. reflexivity.
  - rewrite take_ubx_eq. pose proof (declared_length_nonneg buf) as Hd.
    destruct (Z.ltb_spec (len buf) 6) as [H6 | H6]; [discriminate|]. cbv zeta.
    rewrite Z.geb_leb.
    destruct (Z.leb_spec (declared_length buf + 8) (len buf)) as [Hl | Hl];
      [|discriminate].
    intros [= <-]. unfold well_framed.
    set (k := Z.to_nat (declared_length buf + 8)).
    assert (Hlen : len (firstn k buf) = declared_length buf + 8).
    { unfold len in *. rewrite length_firstn. lia. }
    assert (Hd' : declared_length (firstn k buf) = declared_length buf).
    { rewrite <- (firstn_skipn k buf) at 2. symmetry. apply declared_length_app. lia. }
    rewrite Hlen, Hd', Z.eqb_refl. apply orb_true_r.
  - intros [= <-]. unfold well_framed.
    rewrite (noise_not_frame _ (skipped_is_noise buf k Hk Hn Hu)). reflexivity.
  - discriminate.
Qed.

Lemma get_msgs_upto_well_framed (fuel : nat) :
  forall buf, Forall (fun m => well_framed m = true) (fst (fst (get_msgs_upto fuel buf))).
Proof.
  induction fuel as [|fuel IH]; intros buf; simpl; [constructor|].
  pose proof (next_msg_well_framed buf) as Hw.
  destruct (_next_msg buf) as [[[m |] | e] buf']; simpl; try constructor.
  specialize (IH buf'). destruct (get_msgs_upto fuel buf') as [[ms e] b].
  simpl in *. constructor; [apply Hw; reflexivity | exact IH].
Qed.

(** X8: every raw value [get_msgs] yields that begins with the UBX marker
    is a whole frame by its own header: its length is the payload length
    its bytes 4 and 5 declare (little-endian) plus 8. A yielded span of
    noise never begins with the marker, so the two cannot be confused. *)
Theorem yielded_frames_are_whole (buf : bytes) :
  Forall (fun m => well_framed m = true) (fst (fst (get_msgs buf)))
  /\ (forall m, In m (fst (fst (get_msgs buf))) ->
        is_noise m = true -> is_ubx_frame m = false).
Proof.
  split; [apply get_msgs_upto_well_framed|].
  intros [s | b] _ H; [reflexivity|]. apply noise_not_frame, H.
Qed.

(** ** Sentences *)

Lemma take_nmea_span (buf : bytes) :
  find NMEA_START buf = 0 ->
  find CRLF buf <> -1 ->
  exists body,
    firstn (Z.to_nat (find CRLF buf + 2)) buf = body ++ CRLF
    /\ buf = (body ++ CRLF) ++ skipn (Z.to_nat (find CRLF buf + 2)) buf
    /\ startswith NMEA_START body = true
    /\ find CRLF (body ++ CRLF) = len body.
Proof.
  intros Hn Hc. apply find_zero in Hn.
  destruct (find_cases CRLF buf) as [[E _] | (c & E & Hs & Hb & Hl)]; [contradiction|].
  rewrite E. simpl length in Hl.
  replace (Z.to_nat (Z.of_nat c + 2)) with (c + 2)%nat by lia.
  destruct (startswith_app _ _ Hs) as [t Ht].
  assert (Hbuf : buf = (firstn c buf ++ CRLF) ++ t).
  { rewrite <- app_assoc, <- Ht. symmetry. apply firstn_skipn. }
  assert (Hlen : length (firstn c buf ++ CRLF) = (c + 2)%nat).
  { rewrite length_app, length_firstn. simpl. lia. }
  destruct (split_at_length (firstn c buf ++ CRLF) t (c + 2) Hlen) as [Hf Hk].
  rewrite <- Hbuf in Hf, Hk.
  exists (firstn c buf). split; [exact Hf|]. split; [rewrite Hk; exact Hbuf|]. split.
  - apply startswith_firstn_keep; [exact Hn|]. simpl.
    destruct c as [|c]; [|lia]. exfalso.
    destruct buf as [|y buf]; [discriminate|]. simpl in Hn, Hs.
    apply andb_true_iff in Hn as [Hn _]. apply andb_true_iff in Hs as [Hs _].
    apply Byte.byte_dec_bl in Hn. apply Byte.byte_dec_bl in Hs. congruence.
  - unfold len. rewrite length_firstn.
    replace (Nat.min c (length buf)) with c by lia.
    apply find_first_at. rewrite <- Hf. repeat split.
    + rewrite skipn_firstn_comm.
      replace (c + 2 - c)%nat with 2%nat by lia.
      apply startswith_firstn_keep; [exact Hs | simpl; lia].
    + intros j Hj. destruct (startswith CRLF (skipn j (firstn (c + 2) buf))) eqn:Ej;
        [|reflexivity].
      apply occurrence_firstn in Ej as [Ej _]; [|discriminate].
      rewrite (Hb j Hj) in Ej. discriminate.
    + rewrite length_firstn. simpl. lia.
Qed.

(** X9: what the decoder is given. A detection call that returns a
    sentence has decoded a span from the front of the buffer that begins
    with [$] and ends with the first CRLF of the buffer, which is the only
    CRLF of the span; the buffer keeps what lies behind it. *)
Theorem sentence_is_first_line (buf : bytes) (s : Sentence) :
  fst (_next_msg buf) = inl (Some (Nmea s)) ->
  exists body,
    buf = (body ++ CRLF) ++ snd (_next_msg buf)
    /\ startswith NMEA_START body = true
    /\ find CRLF (body ++ CRLF) = len body
    /\ NMEASentence_parse (body ++ CRLF) = inl s.
Proof.
  destruct (next_msg_cases buf) as [[En ->] | [[Eu ->] | [(k & _ & _ & _ & _ & ->) | (_ & _ & ->)]]];
    try discriminate.
  - rewrite take_nmea_eq.
    destruct (Z.eqb_spec (find CRLF buf) (-1)) as [Ec | Ec]; [discriminate|].
    destruct (take_nmea_span buf En Ec) as (body & Hf & Hbuf & Hstart & Hfind).
    cbv zeta. rewrite Hf.
    destruct (NMEASentence_parse (body ++ CRLF)) eqn:Ep; [|discriminate].
    intros [= <-]. exists body. simpl. auto.
  - rewrite take_ubx_eq. destruct (len buf <? 6); [discriminate|]. cbv zeta.
    destruct (len buf >=? declared_length buf + 8); discriminate.
Qed.

(** X10: the only exception a detection call raises is the decoder's:
    unpacking the length field never fails. When the decoder raises, the
    sentence it refused has already been removed from the buffer, so the
    next call goes on behind it. *)
Theorem raise_drops_the_sentence (buf : bytes) (e : exn) :
  fst (_next_msg buf) = inr e ->
  exists pe body,
    e = ParseFailure pe
    /\ buf = (body ++ CRLF) ++ snd (_next_msg buf)
    /\ startswith NMEA_START body = true
    /\ find CRLF (body ++ CRLF) = len body
    /\ NMEASentence_parse (body ++ CRLF) = inr pe.
Proof.
  destruct (next_msg_cases buf) as [[En ->] | [[Eu ->] | [(k & _ & _ & _ & _ & ->) | (_ & _ & ->)]]];
    try discriminate.
  - rewrite take_nmea_eq.
    destruct (Z.eqb_spec (find CRLF buf) (-1)) as [Ec | Ec]; [discriminate|].
    destruct (take_nmea_span buf En Ec) as (body & Hf & Hbuf & Hstart & Hfind).
    cbv zeta. rewrite Hf.
    destruct (NMEASentence_parse (body ++ CRLF)) as [s | pe] eqn:Ep; [discriminate|].
    intros [= <-]. exists pe, body. simpl. auto.
  - rewrite take_ubx_eq. destruct (len buf <? 6); [discriminate|]. cbv zeta.
    destruct (len buf >=? declared_length buf + 8); discriminate.
Qed.

(** X11: a skip stops at a marker. When a detection call returns a span of
    noise, the buffer it leaves begins with [$] or with the UBX marker, so
    the next call is an extraction and never another skip. *)
Theorem skip_stops_at_marker (buf : bytes) (m : msg) :
  fst (_next_msg buf) = inl (Some m) ->
  is_noise m = true ->
  (startswith NMEA_START (snd (_next_msg buf)) = true
   \/ startswith UBX_START (snd (_next_msg buf)) = true)
  /\ forall m', fst (_next_msg (snd (_next_msg buf))) = inl (Some m') ->
                is_noise m' = false.
Proof.
  intros Hm Hnoise.
  assert (Hstart : startswith NMEA_START (snd (_next_msg buf)) = true
                   \/ startswith UBX_START (snd (_next_msg buf)) = true).
  { destruct (next_msg_cases buf)
      as [[_ E] | [[Eu E] | [(k & Hk & _ & _ & Hpos & E) | (_ & _ & E)]]];
      rewrite E in Hm |- *.
    - rewrite take_nmea_eq in Hm. destruct (find CRLF buf =? -1); [discriminate|].
      cbv zeta in Hm. destruct (NMEASentence_parse _); [|discriminate].
      injection Hm as <-. discriminate.
    - pose proof (next_msg_yieldable buf m) as Hy. rewrite E in Hy.
      rewrite take_ubx_eq in Hm.
      destruct (Z.ltb_spec (len buf) 6); [discriminate|]. cbv zeta in Hm.
      rewrite Z.geb_leb in Hm.
      destruct (Z.leb_spec (declared_length buf + 8) (len buf)); [|discriminate].
      injection Hm as <-. apply noise_not_frame in Hnoise.
      rewrite startswith_firstn_keep in Hnoise;
        [discriminate | apply find_zero, Eu |].
      pose proof (declared_length_nonneg buf). simpl. lia.
    - simpl.
      destruct Hpos as [-> | ->]; [left | right].
      + destruct (find_cases NMEA_START buf) as [[E' _] | (j & E' & Hs & _)]; [lia|].
        rewrite E', Nat2Z.id. exact Hs.
      + destruct (find_cases UBX_START buf) as [[E' _] | (j & E' & Hs & _)]; [lia|].
        rewrite E', Nat2Z.id. exact Hs.
    - discriminate. }
  split; [exact Hstart|].
  intros m' Hm'.
  set (b := snd (_next_msg buf)) in *.
  destruct (is_noise m') eqn:En; [|reflexivity]. exfalso.
  destruct (next_msg_cases b)
    as [[_ E] | [[Eu E] | [(k & Hk & Hn & Hu & _ & E) | (_ & _ & E)]]];
    rewrite E in Hm'.
  - rewrite take_nmea_eq in Hm'. destruct (find CRLF b =? -1); [discriminate|].
    cbv zeta in Hm'. destruct (NMEASentence_parse _); [|discriminate].
    injection Hm' as <-. discriminate.
  - rewrite take_ubx_eq in Hm'.
    destruct (Z.ltb_spec (len b) 6); [discriminate|]. cbv zeta in Hm'.
    rewrite Z.geb_leb in Hm'.
    destruct (Z.leb_spec (declared_length b + 8) (len b)); [|discriminate].
    injection Hm' as <-. apply noise_not_frame in En.
    rewrite startswith_firstn_keep in En; [discriminate | apply find_zero, Eu |].
    pose proof (declared_length_nonneg b). simpl. lia.
  - destruct Hstart as [H | H]; apply find_zero in H; lia.
  - discriminate.
Qed.

(** ** Serialised messages read back *)

Lemma next_msg_serialised (m : UBXMessage) (out : bytes) :
  length (msg_id m) = 2%nat ->
  serialise m = Some out ->
  let k := Z.to_nat (len (payload m) + 8) in
  _next_msg out = (inl (Some (Raw (firstn k out))), [x10; x13])
  /\ exists rest, out = xb5 :: x62 :: rest.
Proof.
  intros Hid Hs k.
  assert (Hlen : len (payload m) <= 65535).
  { destruct (Z.le_gt_cases (len (payload m)) 65535) as [H | H]; [exact H|].
    rewrite serialise_too_long in Hs by lia. discriminate. }
  destruct (serialise_eq m Hlen) as (lo & hi & x & y & Hv & _ & Hs').
  rewrite Hs' in Hs. injection Hs as Hout. symmetry in Hout.
  destruct m as [mid pl]. cbn [msg_id payload] in *.
  destruct mid as [|i0 [|i1 [|? ?]]]; try discriminate.
  pose proof (len_nonneg pl) as Hpl.
  assert (Hl : len out = len pl + 10).
  { rewrite Hout. unfold len. cbn [app length]. rewrite !length_app.
    cbn [length]. lia. }
  assert (Hsplit : out = (xb5 :: x62 :: i0 :: i1 :: lo :: hi :: pl ++ [x; y]) ++ [x10; x13]).
  { rewrite Hout. simpl. rewrite <- app_assoc. reflexivity. }
  destruct (split_at_length (xb5 :: x62 :: i0 :: i1 :: lo :: hi :: pl ++ [x; y])
              [x10; x13] k) as [_ Hskip].
  { subst k. simpl. rewrite length_app. unfold len. simpl. lia. }
  rewrite <- Hsplit in Hskip.
  assert (Hd : declared_length out = len pl) by (rewrite Hout; exact Hv).
  assert (Hu : find UBX_START out = 0) by (rewrite Hout; reflexivity).
  split.
  - rewrite next_msg_ubx, take_ubx_eq by exact Hu.
    destruct (Z.ltb_spec (len out) 6); [lia|]. cbv zeta. rewrite Z.geb_leb, Hd.
    destruct (Z.leb_spec (len pl + 8) (len out)); [|lia].
    fold k. rewrite Hskip. reflexivity.
  - eexists. rewrite Hout. reflexivity.
Qed.

(** X12: two serialised messages, one behind the other, read back by the
    parser: each comes out as one frame without its two trailing bytes, and
    the trailing bytes [10 13] of the first come out between the frames as a
    span of noise; those of the second stay in the buffer. *)
Theorem two_serialised_messages (m1 m2 : UBXMessage) (o1 o2 : bytes) :
  length (msg_id m1) = 2%nat ->
  length (msg_id m2) = 2%nat ->
  serialise m1 = Some o1 ->
  serialise m2 = Some o2 ->
  get_msgs (o1 ++ o2)
  = ([Raw (firstn (Z.to_nat (len (payload m1) + 8)) o1);
      Raw [x10; x13];
      Raw (firstn (Z.to_nat (len (payload m2) + 8)) o2)],
     Stopped, [x10; x13]).
Proof.
  intros Hid1 Hid2 Hs1 Hs2.
  destruct (next_msg_serialised m1 o1 Hid1 Hs1) as [H1 _].
  destruct (next_msg_serialised m2 o2 Hid2 Hs2) as [H2 [rest Hrest]].
  cbv zeta in H1, H2.
  pose proof (next_msg_app o1 o2) as Ha. rewrite H1 in Ha.
  rewrite get_msgs_eq, Ha by discriminate. cbn [fst snd app].
  assert (Hskip : _next_msg (x10 :: x13 :: o2) = (inl (Some (Raw [x10; x13])), o2)).
  { rewrite (next_msg_skip (x10 :: x13 :: o2) 2); [reflexivity | | | lia |].
    - intros E. apply find_zero in E. discriminate.
    - intros E. apply find_zero in E. discriminate.
    - assert (Eu : find UBX_START (x10 :: x13 :: o2) = 2)
        by (rewrite Hrest; reflexivity).
      assert (En : find NMEA_START (x10 :: x13 :: o2) = find_at NMEA_START rest 4)
        by (rewrite Hrest; reflexivity).
      rewrite Eu, En.
      destruct (find_at_cases NMEA_START rest 4) as [[E _] | (j & E & _)];
        rewrite E; lia. }
  rewrite get_msgs_eq, Hskip, get_msgs_eq, H2. reflexivity.
Qed.

Lemma serialise_cons_form (m : UBXMessage) (out : bytes) :
  length (msg_id m) = 2%nat ->
  serialise m = Some out ->
  exists i0 i1 lo hi x y,
    msg_id m = [i0; i1]
    /\ int_of_byte lo + 256 * int_of_byte hi = len (payload m)
    /\ ubx_checksum (i0 :: i1 :: lo :: hi :: payload m) = Some [x; y]
    /\ out = (xb5 :: x62 :: i0 :: i1 :: lo :: hi :: payload m ++ [x; y]) ++ [x10; x13].
Proof.
  intros Hid Hs.
  assert (Hlen : len (payload m) <= 65535).
  { destruct (Z.le_gt_cases (len (payload m)) 65535) as [H | H]; [exact H|].
    rewrite serialise_too_long in Hs by lia. discriminate. }
  destruct (serialise_eq m Hlen) as (lo & hi & x & y & Hv & Hck & Hs').
  rewrite Hs' in Hs. injection Hs as Hout.
  destruct m as [mid pl]. cbn [msg_id payload] in *.
  destruct mid as [|i0 [|i1 [|? ?]]]; try discriminate.
  exists i0, i1, lo, hi, x, y. repeat split; try assumption.
  rewrite <- Hout. simpl. rewrite <- app_assoc. reflexivity.
Qed.

(** X13: the frame the parser reads back from a serialised message can be
    taken apart again with the slices of the wire format: bytes 2 to 4 are
    the [msg_id], bytes 4 to 6 unpack to the payload length, the payload
    follows, and the last two bytes are the checksum of everything between
    the marker and them. *)
Theorem frame_read_back_verifies (m : UBXMessage) (out : bytes) :
  length (msg_id m) = 2%nat ->
  serialise m = Some out ->
  exists frame,
    _next_msg out = (inl (Some (Raw frame)), [x10; x13])
    /\ slice 0 2 frame = UBX_START
    /\ slice 2 4 frame = msg_id m
    /\ unpack_H_le (slice 4 6 frame) = Some (len (payload m))
    /\ slice 6 (len frame - 2) frame = payload m
    /\ ubx_checksum (slice 2 (len frame - 2) frame)
       = Some (slice_from (len frame - 2) frame).
Proof.
  intros Hid Hs.
  destruct (next_msg_serialised m out Hid Hs) as [Hnext _]. cbv zeta in Hnext.
  destruct (serialise_cons_form m out Hid Hs)
    as (i0 & i1 & lo & hi & x & y & Eid & Hv & Hck & Hout).
  set (pl := payload m) in *.
  set (frame := xb5 :: x62 :: i0 :: i1 :: lo :: hi :: pl ++ [x; y]) in *.
  pose proof (len_nonneg pl) as Hpl.
  assert (Hlen : length frame = (6 + (length pl + 2))%nat).
  { subst frame. simpl. rewrite length_app. reflexivity. }
  destruct (split_at_length frame [x10; x13] (Z.to_nat (len pl + 8))) as [Hf _].
  { rewrite Hlen. unfold len. lia. }
  rewrite <- Hout in Hf. rewrite Hf in Hnext.
  exists frame. split; [exact Hnext|].
  assert (Hcut : Z.to_nat (len frame - 2) = (6 + length pl)%nat).
  { unfold len. rewrite Hlen. lia. }
  assert (Hge : 0 <= len frame - 2) by (unfold len; rewrite Hlen; lia).
  destruct (split_at_length pl [x; y] (length pl) eq_refl) as [Hfp Hsp].
  unfold slice.
  rewrite !slice_from_nonneg, !slice_to_nonneg by lia.
  rewrite Hcut, Eid.
  change (Z.to_nat 0) with 0%nat. change (Z.to_nat 2) with 2%nat.
  change (Z.to_nat 4) with 4%nat. change (Z.to_nat 6) with 6%nat.
  subst frame. cbn [firstn skipn Nat.add]. rewrite Hfp, Hsp.
  repeat split; try reflexivity.
  - unfold unpack_H_le. f_equal. exact Hv.
  - exact Hck.
Qed.

(** X14: without a marker nothing is ever released. As long as neither [$]
    nor the UBX marker occurs in what has been fed, draining after every
    chunk yields nothing and the buffer holds every byte fed so far. *)
Theorem no_marker_buffer_grows (chunks : list bytes) :
  forall buf,
    find NMEA_START (buf ++ concat chunks) = -1 ->
    find UBX_START (buf ++ concat chunks) = -1 ->
    stream_loop chunks buf
    = (map (fun _ => []) chunks, Stopped, buf ++ concat chunks).
Proof.
  induction chunks as [|c chunks IH]; intros buf Hn Hu.
  - simpl. rewrite app_nil_r. reflexivity.
  - cbn [stream_loop concat map]. rewrite feed_eq. cbv beta iota.
    cbn [concat] in Hn, Hu. rewrite app_assoc in Hn, Hu.
    rewrite get_msgs_not_ready.
    + cbv beta iota. rewrite (IH (buf ++ c) Hn Hu), <- app_assoc. reflexivity.
    + left. split.
      * destruct (Z.eq_dec (find NMEA_START (buf ++ c)) (-1)) as [E | E]; [exact E|].
        rewrite (find_app_found _ _ (concat chunks) E) in Hn. contradiction.
      * destruct (Z.eq_dec (find UBX_START (buf ++ c)) (-1)) as [E | E]; [exact E|].
        rewrite (find_app_found _ _ (concat chunks) E) in Hu. contradiction.
Qed.

End Parser.

Arguments Nmea {Sentence} s.
Arguments Raw {Sentence} b.
Arguments ParseFailure {ParseError} e.
Arguments StructError {ParseError}.
Arguments Stopped {ParseError}.
Arguments Raises {ParseError} e.
Arguments OutOfFuel {ParseError}.
Arguments is_nmea {Sentence} m.
Arguments is_ubx_frame {Sentence} m.
Arguments is_noise {Sentence} m.
Arguments yieldable {Sentence} m.

(** ** The parser on concrete streams *)

Example checksum_123 : ubx_checksum [x01; x02; x03] = Some [x06; x0a].
Proof. reflexivity. Qed.

Example checksum_order_sensitive :
  ubx_checksum [x03; x02; x01] = Some [x06; x0e].
Proof. reflexivity. Qed.

Example serialise_sample :
  serialise (mkUBXMessage [x06; x01] [xab; xcd])
  = Some [xb5; x62; x06; x01; x02; x00; xab; xcd; x81; x54; x10; x13]
  /\ ubx_checksum [x06; x01; x02; x00; xab; xcd] = Some [x81; x54].
Proof. split; reflexivity. Qed.

Example sample_frame_checksum :
  ubx_checksum [x01; x02; x02; x00; xaa; xbb] = Some [x6a; x27].
Proof. reflexivity. Qed.

(** The sample stream drained with the stand-in decoder, which accepts the
    sentence: the two spans of noise are yielded with the sentence and the
    frame. A decoder that refuses the sentence raises after the first span
    of noise has been yielded. *)
Example sample_stream_drained :
  get_msgs bytes unit echo_parse sample_stream
  = ([Raw [x00; x01]; Nmea sample_sentence; Raw [x07]; Raw sample_frame], Stopped, []).
Proof. reflexivity. Qed.

(** Noise before a marker is yielded whatever the decoder does. *)
Example sample_stream_refused :
  get_msgs bytes unit (fun _ => inr tt) sample_stream
  = ([Raw [x00; x01]], Raises (ParseFailure tt), [x07] ++ sample_frame).
Proof. reflexivity. Qed.

Example noise_yielded_any_decoder
  (Sentence ParseError : Type) (parse : bytes -> Sentence + ParseError) :
  get_msgs Sentence ParseError parse [x00; xb5; x62]
  = ([Raw [x00]], Stopped, [xb5; x62]).
Proof. reflexivity. Qed.

(** C1 fails as stated, whatever the decoder does. Of noise followed by
    a UBX frame [get_msgs] yields two values, the noise first; and of the
    sample stream (noise, a sentence, noise, a frame) the first value
    yielded is the skipped span [00 01], which is neither a sentence nor a
    UBX frame. *)
Lemma skipped_noise_is_yielded :
  (forall (Sentence ParseError : Type) (parse : bytes -> Sentence + ParseError),
     get_msgs Sentence ParseError parse ([x00; x01] ++ sample_frame)
     = ([Raw [x00; x01]; Raw sample_frame], Stopped, [])
     /\ (exists ms e b,
           get_msgs Sentence ParseError parse sample_stream
           = (Raw [x00; x01] :: ms, e, b))
     /\ is_nmea (Sentence := Sentence) (Raw [x00; x01]) = false
     /\ is_ubx_frame (Sentence := Sentence) (Raw [x00; x01]) = false
     /\ is_noise (Sentence := Sentence) (Raw [x00; x01]) = true)
  /\ [x00; x01] <> [].
Proof.
  split; [|discriminate].
  intros Sentence ParseError parse.
  split; [reflexivity|]. split; [|repeat split].
  rewrite get_msgs_eq.
  change (_next_msg Sentence ParseError parse sample_stream)
    with (@inl (option (msg Sentence)) (exn ParseError) (Some (Raw [x00; x01])),
          sample_sentence ++ [x07] ++ sample_frame).
  cbv beta iota.
  destruct (get_msgs Sentence ParseError parse (sample_sentence ++ [x07] ++ sample_frame))
    as [[ms e] b].
  exists ms, e, b. reflexivity.
Qed.

(** C10 fails for a [msg_id] that is not 2 bytes long: the message with
    empty [msg_id] and empty payload serialises to 8 bytes, in which the
    parser reads the two checksum bytes as the length; it takes all 8
    bytes as one frame, the trailing [10 13] with them, and the buffer is
    left empty. *)
Lemma empty_msg_id_swallows_trailer :
  serialise (mkUBXMessage [] []) = Some [xb5; x62; x00; x00; x00; x00; x10; x13]
  /\ len (payload (mkUBXMessage [] [])) <= 65535
  /\ (forall (Sentence ParseError : Type) (parse : bytes -> Sentence + ParseError),
        get_msgs Sentence ParseError parse
          (snd (feed ParseError [xb5; x62; x00; x00; x00; x00; x10; x13] init))
        = ([Raw [xb5; x62; x00; x00; x00; x00; x10; x13]], Stopped, []))
  /\ @nil byte <> [x10; x13].
Proof.
  split; [reflexivity|]. split; [discriminate|]. split; [|discriminate].
  intros Sentence ParseError parse. reflexivity.
Qed.

Lemma get_msgs_yields_skipped_spans_witness :
  is_noise (Sentence := bytes) (Raw (firstn (Z.to_nat 2) sample_stream)) = true
  /\ get_msgs bytes unit echo_parse sample_stream
     = (Raw (firstn (Z.to_nat 2) sample_stream)
          :: fst (fst (get_msgs bytes unit echo_parse (skipn (Z.to_nat 2) sample_stream))),
        snd (fst (get_msgs bytes unit echo_parse (skipn (Z.to_nat 2) sample_stream))),
        snd (get_msgs bytes unit echo_parse (skipn (Z.to_nat 2) sample_stream))).
Proof.
  apply (proj2 (proj2 (get_msgs_yields_skipped_spans bytes unit echo_parse sample_stream))
           2).
  - discriminate.
  - discriminate.
  - left. repeat split.
Defined.

Lemma serialise_layout_witness :
  exists lo hi ck out,
    int_of_byte lo + 256 * int_of_byte hi = 2
    /\ ubx_checksum ([x06; x01] ++ [lo; hi] ++ [xab; xcd]) = Some ck
    /\ serialise (mkUBXMessage [x06; x01] [xab; xcd]) = Some out
    /\ out = [xb5; x62] ++ ([x06; x01] ++ [lo; hi] ++ [xab; xcd]) ++ ck ++ [x10; x13]
    /\ len out = 2 + 10
    /\ len out = 8 + 2 + 2.
Proof.
  apply (serialise_layout (mkUBXMessage [x06; x01] [xab; xcd])).
  - reflexivity.
  - discriminate.
Defined.

Lemma take_ubx_frame_witness :
  find UBX_START sample_frame_10 = 0
  /\ declared_length sample_frame_10 = 10
  /\ stream_loop bytes unit echo_parse
       [firstn 17 sample_frame_10; skipn 17 sample_frame_10] init
     = ([[]; [Raw sample_frame_10]], Stopped, []).
Proof.
  split; [reflexivity|]. split; [reflexivity|].
  apply (take_ubx_frame bytes unit echo_parse sample_frame_10); reflexivity.
Defined.

Lemma not_ready_leaves_buffer_witness :
  _next_msg bytes unit echo_parse [x24; x47; x50; x0d]
  = (inl None, [x24; x47; x50; x0d])
  /\ not_ready [x24; x47; x50; x0d].
Proof.
  apply not_ready_leaves_buffer. left. right. left. split; reflexivity.
Defined.

Lemma skip_removes_offset_witness :
  _next_msg bytes unit echo_parse [x00; x01; xb5; x62; x24]
  = (inl (Some (Raw [x00; x01])), [xb5; x62; x24])
  /\ len [x00; x01] = 2
  /\ len [xb5; x62; x24] = len [x00; x01; xb5; x62; x24] - 2
  /\ [x00; x01; xb5; x62; x24] = [x00; x01] ++ [xb5; x62; x24].
Proof.
  apply (skip_removes_offset bytes unit echo_parse [x00; x01; xb5; x62; x24] 2).
  - discriminate.
  - discriminate.
  - left. repeat split.
Defined.

Lemma get_msgs_finite_witness :
  get_msgs_upto bytes unit echo_parse 100 sample_stream
  = get_msgs bytes unit echo_parse sample_stream.
Proof.
  apply (get_msgs_finite bytes unit echo_parse sample_stream).
  unfold sample_stream, sample_sentence, sample_frame. simpl. lia.
Defined.

Lemma nmea_fed_in_chunks_witness :
  stream_loop bytes unit echo_parse [[x24]; [x47]; [x50]; [x0d]; [x0a]] init
  = ([[]; []; []; []; [Nmea sample_sentence]], Stopped, []).
Proof.
  apply (nmea_fed_in_chunks bytes unit echo_parse [x24; x47; x50] sample_sentence
           [[x24]; [x47]; [x50]; [x0d]] [x0a]);
    try reflexivity. discriminate.
Defined.

Lemma serialised_frame_leaves_trailer_witness :
  exists out,
    serialise (mkUBXMessage [x06; x01] [xab; xcd]) = Some out
    /\ get_msgs bytes unit echo_parse (snd (feed unit out init))
       = ([Raw (firstn (Z.to_nat (2 + 8)) out)], Stopped, [x10; x13])
    /\ out = firstn (Z.to_nat (2 + 8)) out ++ [x10; x13].
Proof.
  apply (serialised_frame_leaves_trailer bytes unit echo_parse
           (mkUBXMessage [x06; x01] [xab; xcd])).
  - reflexivity.
  - discriminate.
Defined.

(** ** Further properties on concrete inputs *)

Lemma ubx_checksum_detects_byte_change_witness :
  x01 <> x02
  /\ ubx_checksum ([x06] ++ x01 :: [x03]) <> ubx_checksum ([x06] ++ x02 :: [x03]).
Proof.
  split; [discriminate|].
  apply (ubx_checksum_detects_byte_change [x06] [x03] x01 x02). discriminate.
Defined.

Lemma ubx_checksum_detects_swap_witness :
  x01 <> x02
  /\ ubx_checksum ([x06] ++ x01 :: x02 :: [x03])
     <> ubx_checksum ([x06] ++ x02 :: x01 :: [x03]).
Proof.
  split; [discriminate|].
  apply (ubx_checksum_detects_swap [x06] [x03] x01 x02). discriminate.
Defined.

Lemma serialise_injective_witness :
  serialise (mkUBXMessage [x06; x01] [xab; xcd])
  = Some [xb5; x62; x06; x01; x02; x00; xab; xcd; x81; x54; x10; x13]
  /\ mkUBXMessage [x06; x01] [xab; xcd] = mkUBXMessage [x06; x01] [xab; xcd].
Proof.
  split; [reflexivity|].
  apply (serialise_injective
           (mkUBXMessage [x06; x01] [xab; xcd]) (mkUBXMessage [x06; x01] [xab; xcd])
           [xb5; x62; x06; x01; x02; x00; xab; xcd; x81; x54; x10; x13]);
    reflexivity.
Defined.


Lemma drained_stays_drained_witness :
  get_msgs bytes unit echo_parse [x24; x47] = ([], Stopped, [x24; x47])
  /\ _next_msg bytes unit echo_parse [x24; x47] = (inl None, [x24; x47]).
Proof.
  apply (drained_stays_drained bytes unit echo_parse (sample_stream ++ [x24; x47])
           [Raw [x00; x01]; Nmea sample_sentence; Raw [x07]; Raw sample_frame]
           [x24; x47]).
  reflexivity.
Defined.

Lemma sentence_is_first_line_witness :
  exists body,
    sample_sentence ++ [x07]
    = (body ++ CRLF) ++ snd (_next_msg bytes unit echo_parse (sample_sentence ++ [x07]))
    /\ startswith NMEA_START body = true
    /\ find CRLF (body ++ CRLF) = len body
    /\ echo_parse (body ++ CRLF) = inl sample_sentence.
Proof.
  apply (sentence_is_first_line bytes unit echo_parse (sample_sentence ++ [x07])
           sample_sentence).
  reflexivity.
Defined.

Lemma raise_drops_the_sentence_witness :
  exists pe body,
    ParseFailure tt = ParseFailure pe
    /\ sample_sentence ++ [x07]
       = (body ++ CRLF)
           ++ snd (_next_msg bytes unit (fun _ => inr tt) (sample_sentence ++ [x07]))
    /\ startswith NMEA_START body = true
    /\ find CRLF (body ++ CRLF) = len body
    /\ (fun _ : bytes => @inr bytes unit tt) (body ++ CRLF) = inr pe.
Proof.
  apply (raise_drops_the_sentence bytes unit (fun _ => inr tt)
           (sample_sentence ++ [x07]) (ParseFailure tt)).
  reflexivity.
Defined.

Lemma skip_stops_at_marker_witness :
  (startswith NMEA_START
     (snd (_next_msg bytes unit echo_parse [x00; x01; xb5; x62; x24])) = true
   \/ startswith UBX_START
        (snd (_next_msg bytes unit echo_parse [x00; x01; xb5; x62; x24])) = true)
  /\ forall m',
       fst (_next_msg bytes unit echo_parse
              (snd (_next_msg bytes unit echo_parse [x00; x01; xb5; x62; x24])))
       = inl (Some m') ->
       is_noise m' = false.
Proof.
  apply (skip_stops_at_marker bytes unit echo_parse [x00; x01; xb5; x62; x24]
           (Raw [x00; x01]));
    reflexivity.
Defined.

Lemma two_serialised_messages_witness :
  get_msgs bytes unit echo_parse
    ([xb5; x62; x06; x01; x02; x00; xab; xcd; x81; x54; x10; x13]
       ++ [xb5; x62; x01; x02; x00; x00; x03; x0a; x10; x13])
  = ([Raw [xb5; x62; x06; x01; x02; x00; xab; xcd; x81; x54];
      Raw [x10; x13];
      Raw [xb5; x62; x01; x02; x00; x00; x03; x0a]],
     Stopped, [x10; x13]).
Proof.
  apply (two_serialised_messages bytes unit echo_parse
           (mkUBXMessage [x06; x01] [xab; xcd]) (mkUBXMessage [x01; x02] [])
           [xb5; x62; x06; x01; x02; x00; xab; xcd; x81; x54; x10; x13]
           [xb5; x62; x01; x02; x00; x00; x03; x0a; x10; x13]);
    reflexivity.
Defined.

Lemma frame_read_back_verifies_witness :
  exists frame,
    _next_msg bytes unit echo_parse
      [xb5; x62; x06; x01; x02; x00; xab; xcd; x81; x54; x10; x13]
    = (inl (Some (Raw frame)), [x10; x13])
    /\ slice 0 2 frame = UBX_START
    /\ slice 2 4 frame = [x06; x01]
    /\ unpack_H_le (slice 4 6 frame) = Some 2
    /\ slice 6 (len frame - 2) frame = [xab; xcd]
    /\ ubx_checksum (slice 2 (len frame - 2) frame)
       = Some (slice_from (len frame - 2) frame).
Proof.
  apply (frame_read_back_verifies bytes unit echo_parse
           (mkUBXMessage [x06; x01] [xab; xcd])
           [xb5; x62; x06; x01; x02; x00; xab; xcd; x81; x54; x10; x13]);
    reflexivity.
Defined.

Lemma no_marker_buffer_grows_witness :
  stream_loop bytes unit echo_parse [[x00; x01]; [x02]; [xb5]] init
  = ([[]; []; []], Stopped, [x00; x01; x02; xb5]).
Proof.
  apply (no_marker_buffer_grows bytes unit echo_parse [[x00; x01]; [x02]; [xb5]] init);
    reflexivity.
Defined.
